(** * Simon Says (script.js): round state machine and playback engine

    A shallow embedding of the game logic of [script.js]: the level
    catalog, the global [state] object, the frame callback of
    [playSequenceWithRaf], and the handlers [beginRound],
    [startRunFromLevel], [advanceLevelOrWin], [onPadPress] and the
    listeners wired in [attachEvents].

    Conventions.
    - JS numbers that hold indices are [nat]; the score and the clock
      (milliseconds, as passed to a [requestAnimationFrame] callback)
      are [Z].
    - [undefined] read from an array out of range is [None].
    - A [TypeError] raised by [LEVELS[i].field] for an index outside the
      catalog makes a handler return [None].
    - JS arrays are objects: the world keeps a store of arrays and
      [state.sequence] holds a reference into it, so that a playback
      closure and the state may share one array.
    - The audio engine (Web Audio calls, the background-music loop) and
      the removal of the glow class after 240 ms are presentation; the
      model records the calls [glowPad], [playColorSound] and
      [playWrongSound] in an effect log. *)

From Stdlib Require Import ZArith Lia.
From stdpp Require Import base strings functions option list.

Open Scope Z_scope.

(** ** Data *)

Inductive Color := red | blue | green | yellow.

Global Instance Color_eq_dec : EqDecision Color.
Proof. solve_decision. Defined.

Inductive Screen := menu | levels | game | gameover | victory.

Global Instance Screen_eq_dec : EqDecision Screen.
Proof. solve_decision. Defined.

Record Level := { id : nat; sequenceLength : nat; stepMs : Z }.

Definition LEVELS : list Level :=
  [ {| id := 1; sequenceLength := 3; stepMs := 700 |};
    {| id := 2; sequenceLength := 4; stepMs := 620 |};
    {| id := 3; sequenceLength := 5; stepMs := 540 |};
    {| id := 4; sequenceLength := 6; stepMs := 470 |};
    {| id := 5; sequenceLength := 7; stepMs := 400 |} ].

Definition COLORS : list Color := [red; blue; green; yellow].

(** The global [state] object.  [sequence] is a reference into the
    array store of the world. *)
Record State := {
  screen : Screen;
  levelIndex : nat;
  score : Z;
  sequence : nat;
  inputIndex : nat;
  acceptingInput : bool;
  musicEnabled : bool;
  isAnimatingSequence : bool
}.

(** ** The playback engine: [playSequenceWithRaf]

    The two arrow functions handed over as [onDone]: the one of
    [beginRound] and the one of the replay listener. *)
Inductive DoneCallback := RoundDone | ReplayDone.

(** The variables captured by the inner function [frame]. *)
Record Closure := {
  c_sequence : nat;          (* reference to the array being played *)
  c_onDone : DoneCallback;
  idx : nat;
  lastStamp : Z;
  minInterval : Z
}.

(** What one call of [frame] does, apart from updating its variables. *)
Inductive FrameAction :=
| Emit (signal : option Color)
    (* glowPad(sequence[idx]); playColorSound(sequence[idx]);
       requestAnimationFrame(frame) *)
| Wait  (* requestAnimationFrame(frame) only *)
| Done. (* onDone(); frame is not registered again *)

(** The closure after an emission at [ts]: [idx += 1; lastStamp = ts]. *)
Definition emitted (c : Closure) (ts : Z) : Closure :=
  {| c_sequence := c_sequence c; c_onDone := c_onDone c;
     idx := S (idx c); lastStamp := ts; minInterval := minInterval c |}.

(** [frame(ts)], reading the array contents [arr] behind the reference.
    [!lastStamp] holds exactly when [lastStamp] is 0. *)
Definition frame (arr : list Color) (c : Closure) (ts : Z)
  : Closure * FrameAction :=
  if lastStamp c =? 0 then (emitted c ts, Emit (arr !! idx c))
  else if minInterval c <=? ts - lastStamp c then
    if (length arr <=? idx c)%nat then (c, Done)
    else (emitted c ts, Emit (arr !! idx c))
  else (c, Wait).

(** The closure built by [playSequenceWithRaf(sequence, stepMs, onDone)]. *)
Definition newClosure (seqref : nat) (step : Z) (onDone : DoneCallback)
  : Closure :=
  {| c_sequence := seqref; c_onDone := onDone;
     idx := 0; lastStamp := 0; minInterval := Z.max 280 step |}.

(** The engine on its own: the frame callback driven by a list of tick
    timestamps over a fixed array.  The log has one entry per delivered
    tick; ticks after [Done] are not delivered, since [frame] did not
    register itself again. *)
Fixpoint playFrames (arr : list Color) (c : Closure) (ticks : list Z)
  : list (Z * FrameAction) :=
  match ticks with
  | [] => []
  | ts :: rest =>
      let '(c', a) := frame arr c ts in
      match a with
      | Done => [(ts, Done)]
      | _ => (ts, a) :: playFrames arr c' rest
      end
  end.

Definition playSequenceWithRaf_log (arr : list Color) (step : Z)
    (ticks : list Z) : list (Z * FrameAction) :=
  playFrames arr (newClosure 0 step RoundDone) ticks.

(** Projections of a log: the emissions with their tick, and the ticks
    at which [onDone] ran. *)
Definition emissions (log : list (Z * FrameAction))
  : list (Z * option Color) :=
  omap (λ e, match e.2 with Emit x => Some (e.1, x) | _ => None end) log.

Definition completions (log : list (Z * FrameAction)) : list Z :=
  omap (λ e, match e.2 with Done => Some e.1 | _ => None end) log.

(** ** The world around [state] *)

(** Calls into the presentation layer, in the order they were made. *)
Inductive Effect :=
| GlowPad (color : option Color)
| PlayColorSound (color : option Color)
| PlayWrongSound.

(** The text nodes the handlers write.  [None] is the text of the page
    as loaded, not yet written by the script. *)
Record Dom := {
  statusText : option string;
  scoreEl : option Z;
  levelEl : option nat;
  finalScoreEl : option Z;
  victoryScoreEl : option Z
}.

Record World := {
  st : State;
  arrays : nat → list Color;   (* the store: the array behind each reference *)
  nextRef : nat;               (* the reference the next new array gets *)
  dom : Dom;
  rafQueue : list Closure;     (* frame callbacks registered for the next frame *)
  timeouts : nat;              (* pending [setTimeout(beginRound, 650)] *)
  effects : list Effect;
  random : nat → nat;          (* the n-th draw of [Math.random], scaled *)
  draws : nat                  (* draws made so far *)
}.

(** Field updates. *)
Definition setState (f : State → State) (w : World) : World :=
  {| st := f (st w); arrays := arrays w; nextRef := nextRef w; dom := dom w;
     rafQueue := rafQueue w; timeouts := timeouts w; effects := effects w;
     random := random w; draws := draws w |}.

Definition setDom (f : Dom → Dom) (w : World) : World :=
  {| st := st w; arrays := arrays w; nextRef := nextRef w; dom := f (dom w);
     rafQueue := rafQueue w; timeouts := timeouts w; effects := effects w;
     random := random w; draws := draws w |}.

Definition setArrays (a : nat → list Color) (w : World) : World :=
  {| st := st w; arrays := a; nextRef := nextRef w; dom := dom w;
     rafQueue := rafQueue w; timeouts := timeouts w; effects := effects w;
     random := random w; draws := draws w |}.

Definition setRafQueue (q : list Closure) (w : World) : World :=
  {| st := st w; arrays := arrays w; nextRef := nextRef w; dom := dom w;
     rafQueue := q; timeouts := timeouts w; effects := effects w;
     random := random w; draws := draws w |}.

Definition setTimeouts (n : nat) (w : World) : World :=
  {| st := st w; arrays := arrays w; nextRef := nextRef w; dom := dom w;
     rafQueue := rafQueue w; timeouts := n; effects := effects w;
     random := random w; draws := draws w |}.

Definition perform (es : list Effect) (w : World) : World :=
  {| st := st w; arrays := arrays w; nextRef := nextRef w; dom := dom w;
     rafQueue := rafQueue w; timeouts := timeouts w;
     effects := effects w ++ es;
     random := random w; draws := draws w |}.

Definition setDraws (n : nat) (w : World) : World :=
  {| st := st w; arrays := arrays w; nextRef := nextRef w; dom := dom w;
     rafQueue := rafQueue w; timeouts := timeouts w; effects := effects w;
     random := random w; draws := n |}.

Definition withScreen (x : Screen) (s : State) : State :=
  {| screen := x; levelIndex := levelIndex s; score := score s;
     sequence := sequence s; inputIndex := inputIndex s;
     acceptingInput := acceptingInput s; musicEnabled := musicEnabled s;
     isAnimatingSequence := isAnimatingSequence s |}.

Definition withLevelIndex (x : nat) (s : State) : State :=
  {| screen := screen s; levelIndex := x; score := score s;
     sequence := sequence s; inputIndex := inputIndex s;
     acceptingInput := acceptingInput s; musicEnabled := musicEnabled s;
     isAnimatingSequence := isAnimatingSequence s |}.

Definition withScore (x : Z) (s : State) : State :=
  {| screen := screen s; levelIndex := levelIndex s; score := x;
     sequence := sequence s; inputIndex := inputIndex s;
     acceptingInput := acceptingInput s; musicEnabled := musicEnabled s;
     isAnimatingSequence := isAnimatingSequence s |}.

Definition withSequence (x : nat) (s : State) : State :=
  {| screen := screen s; levelIndex := levelIndex s; score := score s;
     sequence := x; inputIndex := inputIndex s;
     acceptingInput := acceptingInput s; musicEnabled := musicEnabled s;
     isAnimatingSequence := isAnimatingSequence s |}.

Definition withInputIndex (x : nat) (s : State) : State :=
  {| screen := screen s; levelIndex := levelIndex s; score := score s;
     sequence := sequence s; inputIndex := x;
     acceptingInput := acceptingInput s; musicEnabled := musicEnabled s;
     isAnimatingSequence := isAnimatingSequence s |}.

Definition withAcceptingInput (x : bool) (s : State) : State :=
  {| screen := screen s; levelIndex := levelIndex s; score := score s;
     sequence := sequence s; inputIndex := inputIndex s;
     acceptingInput := x; musicEnabled := musicEnabled s;
     isAnimatingSequence := isAnimatingSequence s |}.

Definition withMusicEnabled (x : bool) (s : State) : State :=
  {| screen := screen s; levelIndex := levelIndex s; score := score s;
     sequence := sequence s; inputIndex := inputIndex s;
     acceptingInput := acceptingInput s; musicEnabled := x;
     isAnimatingSequence := isAnimatingSequence s |}.

Definition withIsAnimatingSequence (x : bool) (s : State) : State :=
  {| screen := screen s; levelIndex := levelIndex s; score := score s;
     sequence := sequence s; inputIndex := inputIndex s;
     acceptingInput := acceptingInput s; musicEnabled := musicEnabled s;
     isAnimatingSequence := x |}.

Definition withStatusText (x : string) (d : Dom) : Dom :=
  {| statusText := Some x; scoreEl := scoreEl d; levelEl := levelEl d;
     finalScoreEl := finalScoreEl d; victoryScoreEl := victoryScoreEl d |}.

Definition withHud (lvl : nat) (sc : Z) (d : Dom) : Dom :=
  {| statusText := statusText d; scoreEl := Some sc; levelEl := Some lvl;
     finalScoreEl := finalScoreEl d; victoryScoreEl := victoryScoreEl d |}.

Definition withFinalScoreEl (x : Z) (d : Dom) : Dom :=
  {| statusText := statusText d; scoreEl := scoreEl d; levelEl := levelEl d;
     finalScoreEl := Some x; victoryScoreEl := victoryScoreEl d |}.

Definition withVictoryScoreEl (x : Z) (d : Dom) : Dom :=
  {| statusText := statusText d; scoreEl := scoreEl d; levelEl := levelEl d;
     finalScoreEl := finalScoreEl d; victoryScoreEl := Some x |}.

(** The contents of the array behind a reference, and of
    [state.sequence]. *)
Definition deref (w : World) (r : nat) : list Color := arrays w r.

Definition currentSequence (w : World) : list Color :=
  deref w (sequence (st w)).

(** ** Handlers *)

Definition showScreen (name : Screen) : World → World :=
  setState (withScreen name).

Definition updateHud (w : World) : option World :=
  lvl ← LEVELS !! levelIndex (st w);
  Some (setDom (withHud (id lvl) (score (st w))) w).

(** [COLORS[Math.floor(Math.random() * COLORS.length)]]: the draw
    scaled to an index below [COLORS.length]. *)
Definition randColor (w : World) : Color * World :=
  (default red (COLORS !! (random w (draws w) `mod` length COLORS)%nat),
   setDraws (S (draws w)) w).

Definition glowPad (color : option Color) : World → World :=
  perform [GlowPad color].

Definition playColorSound (color : option Color) : World → World :=
  perform [PlayColorSound color].

Definition playWrongSound : World → World :=
  perform [PlayWrongSound].

(** [state.sequence.push(randColor())]: in place, on the shared array. *)
Definition sequencePush (w : World) : World :=
  let '(c, w1) := randColor w in
  let r := sequence (st w1) in
  setArrays (<[r := arrays w1 r ++ [c]]> (arrays w1)) w1.

Definition playSequenceWithRaf (seqref : nat) (step : Z)
    (onDone : DoneCallback) (w : World) : World :=
  setRafQueue (rafQueue w ++ [newClosure seqref step onDone]) w.

(** The bodies of the two [onDone] callbacks. *)
Definition runDone (cb : DoneCallback) (w : World) : World :=
  match cb with
  | RoundDone =>
      setDom (withStatusText "Your turn.")
        (setState (withAcceptingInput true)
           (setState (withIsAnimatingSequence false) w))
  | ReplayDone =>
      setDom (withStatusText "Your turn.")
        (setState (withInputIndex 0)
           (setState (withAcceptingInput true)
              (setState (withIsAnimatingSequence false) w)))
  end.

Definition beginRound (w : World) : option World :=
  let w1 := setState (withInputIndex 0)
              (setState (withIsAnimatingSequence true)
                 (setState (withAcceptingInput false) w)) in
  w2 ← updateHud w1;
  let w3 := setDom (withStatusText "Watch the sequence...") w2 in
  lvl ← LEVELS !! levelIndex (st w3);
  Some (playSequenceWithRaf (sequence (st w3)) (stepMs lvl) RoundDone w3).

(** The array literal [[]]: a new, empty array behind a new reference. *)
Definition newArray (w : World) : World :=
  {| st := st w; arrays := <[nextRef w := []]> (arrays w);
     nextRef := S (nextRef w); dom := dom w;
     rafQueue := rafQueue w; timeouts := timeouts w; effects := effects w;
     random := random w; draws := draws w |}.

(** The [for] loop of [startRunFromLevel]. *)
Fixpoint pushColors (n : nat) (w : World) : World :=
  match n with
  | O => w
  | S n' => pushColors n' (sequencePush w)
  end.

Definition startRunFromLevel (index : nat) (w : World) : option World :=
  let w1 := setState (withLevelIndex index) w in
  let w2 := setState (withScore 0) w1 in
  (* state.sequence = []: a new array *)
  let w3 := setState (withSequence (nextRef w2)) (newArray w2) in
  lvl ← LEVELS !! levelIndex (st w3);
  let w4 := pushColors (sequenceLength lvl) w3 in
  beginRound (showScreen game w4).

Definition advanceLevelOrWin (w : World) : World :=
  let w1 := setState (withScore (score (st w) + 100)) w in
  if (levelIndex (st w1) =? length LEVELS - 1)%nat then
    showScreen victory (setDom (withVictoryScoreEl (score (st w1))) w1)
  else
    let w2 := setState (withLevelIndex (levelIndex (st w1) + 1)%nat) w1 in
    let w3 := sequencePush w2 in
    let w4 := setDom (withStatusText "Great! Next level...") w3 in
    setTimeouts (S (timeouts w4)) w4.

(** The guard of [onPadPress]: true when the press is dropped. *)
Definition padIgnored (s : State) : bool :=
  negb (acceptingInput s) || isAnimatingSequence s
  || negb (bool_decide (screen s = game)).

Definition onPadPress (color : Color) (w : World) : World :=
  if padIgnored (st w) then w
  else
    let w1 := playColorSound (Some color) (glowPad (Some color) w) in
    let expected := currentSequence w1 !! inputIndex (st w1) in
    if bool_decide (Some color ≠ expected) then
      let w2 := setState (withAcceptingInput false) w1 in
      let w3 := playWrongSound w2 in
      let w4 := setDom (withFinalScoreEl (score (st w3))) w3 in
      showScreen gameover w4
    else
      let w2 := setState (withInputIndex (inputIndex (st w1) + 1)%nat) w1 in
      if (length (currentSequence w2) <=? inputIndex (st w2))%nat then
        advanceLevelOrWin (setState (withAcceptingInput false) w2)
      else w2.

(** The guard of the replay listener: true when the click is dropped. *)
Definition replayIgnored (s : State) : bool :=
  negb (bool_decide (screen s = game)) || isAnimatingSequence s
  || negb (acceptingInput s).

Definition onReplayClick (w : World) : option World :=
  if replayIgnored (st w) then Some w
  else
    let w1 := setState (withIsAnimatingSequence true)
                (setState (withAcceptingInput false) w) in
    let w2 := setDom (withStatusText "Replaying...") w1 in
    lvl ← LEVELS !! levelIndex (st w2);
    Some (playSequenceWithRaf (sequence (st w2)) (stepMs lvl) ReplayDone w2).

Definition toggleMusic : World → World :=
  setState (λ s, withMusicEnabled (negb (musicEnabled s)) s).

(** ** The event loop *)

(** One registered frame callback run at timestamp [ts]. *)
Definition runFrame (ts : Z) (w : World) (c : Closure) : World :=
  let '(c', a) := frame (deref w (c_sequence c)) c ts in
  match a with
  | Emit x =>
      let w1 := playColorSound x (glowPad x w) in
      setRafQueue (rafQueue w1 ++ [c']) w1
  | Wait => setRafQueue (rafQueue w ++ [c']) w
  | Done => runDone (c_onDone c) w
  end.

(** An animation frame: the callbacks registered so far run in order;
    what they register is for the next frame. *)
Definition animationFrame (ts : Z) (w : World) : World :=
  foldl (runFrame ts) (setRafQueue [] w) (rafQueue w).

(** A pending [setTimeout(beginRound, 650)] fires. *)
Definition timeoutFires (w : World) : option World :=
  match timeouts w with
  | O => Some w
  | S n => beginRound (setTimeouts n w)
  end.

(** What the environment can do: the clicks that [attachEvents] and
    [createLevelButtons] listen to, a timer firing, a frame. *)
Inductive Event :=
| ClickStart
| ClickBackMenuFromLevel
| ClickRestart
| ClickPlayAgain
| ClickBackMenuFromGameover
| ClickBackMenuFromVictory
| ClickLevel (index : nat)
| ClickReplay
| ClickPad (color : Color)
| ClickMusic
| Timeout
| AnimationFrame (ts : Z).

Definition dispatch (e : Event) (w : World) : option World :=
  match e with
  | ClickStart => Some (showScreen levels w)
  | ClickBackMenuFromLevel => Some (showScreen menu w)
  | ClickRestart => Some (showScreen levels w)
  | ClickPlayAgain => Some (showScreen levels w)
  | ClickBackMenuFromGameover => Some (showScreen menu w)
  | ClickBackMenuFromVictory => Some (showScreen menu w)
  | ClickLevel index => startRunFromLevel index w
  | ClickReplay => onReplayClick w
  | ClickPad color => Some (onPadPress color w)
  | ClickMusic => Some (toggleMusic w)
  | Timeout => timeoutFires w
  | AnimationFrame ts => Some (animationFrame ts w)
  end.

(** The world once [init()] has run. *)
Definition initialWorld (rnd : nat → nat) : World :=
  {| st := {| screen := menu; levelIndex := 0; score := 0; sequence := 0;
              inputIndex := 0; acceptingInput := false;
              musicEnabled := true; isAnimatingSequence := false |};
     arrays := λ _, []; nextRef := 1;
     dom := {| statusText := None; scoreEl := None; levelEl := None;
               finalScoreEl := None; victoryScoreEl := None |};
     rafQueue := []; timeouts := 0; effects := [];
     random := rnd; draws := 0 |}.

Fixpoint run (evs : list Event) (w : World) : option World :=
  match evs with
  | [] => Some w
  | e :: rest => w' ← dispatch e w; run rest w'
  end.

(** States reachable when the handlers are invoked in any order. *)
Inductive reachable (rnd : nat → nat) : World → Prop :=
| reachable_init : reachable rnd (initialWorld rnd)
| reachable_step w e w' :
    reachable rnd w → dispatch e w = Some w' → reachable rnd w'.

(** States reachable through the page.

    Modelled from the spec: the markup and style sheet that place each
    button on one screen and hide the inactive screens are not in
    [script.js].  The spec gives the screens each action is available
    from: the run starts from the level selection, which is entered from
    the menu, from GameOver and from Victory; the menu is entered from
    the level selection, from GameOver and from Victory; pads and the
    replay button belong to the game screen.  Timers and frames come
    from the browser on any screen. *)
Definition available (e : Event) (s : Screen) : bool :=
  match e with
  | ClickStart => bool_decide (s = menu)
  | ClickBackMenuFromLevel => bool_decide (s = levels)
  | ClickLevel _ => bool_decide (s = levels)
  | ClickRestart => bool_decide (s = gameover)
  | ClickBackMenuFromGameover => bool_decide (s = gameover)
  | ClickPlayAgain => bool_decide (s = victory)
  | ClickBackMenuFromVictory => bool_decide (s = victory)
  | ClickReplay => bool_decide (s = game)
  | ClickPad _ => bool_decide (s = game)
  | ClickMusic => bool_decide (s = menu) || bool_decide (s = game)
  | Timeout => true
  | AnimationFrame _ => true
  end.

Inductive uiReachable (rnd : nat → nat) : World → Prop :=
| uiReachable_init : uiReachable rnd (initialWorld rnd)
| uiReachable_step w e w' :
    uiReachable rnd w →
    available e (screen (st w)) = true →
    dispatch e w = Some w' →
    uiReachable rnd w'.

(** The events that start a run or bring up a menu. *)
Definition startsRunOrEntersMenu (e : Event) : bool :=
  match e with
  | ClickStart | ClickBackMenuFromLevel | ClickRestart | ClickPlayAgain
  | ClickBackMenuFromGameover | ClickBackMenuFromVictory | ClickLevel _ => true
  | _ => false
  end.

(** Nothing is pending: no frame callback, no inter-round timer. *)
Definition quiet (w : World) : Prop := rafQueue w = [] ∧ timeouts w = 0%nat.

(** ** Properties the theorems speak about *)

(** The two sub-mode flags exclude each other. *)
Definition flagsExclusive (s : State) : Prop :=
  ¬ (acceptingInput s = true ∧ isAnimatingSequence s = true).

(** A tick source: the timestamp of the n-th frame. *)
Definition increasing (clock : nat → Z) : Prop := ∀ n, clock n < clock (S n).

Definition ticks (clock : nat → Z) (n : nat) : list Z := clock <$> seq 0 n.

(** Consecutive entries of [ts] are at least [M] apart. *)
Definition spaced (M : Z) (ts : list Z) : Prop :=
  ∀ i t t', ts !! i = Some t → ts !! S i = Some t' → M ≤ t' - t.

(** What a playback over [arr] owes its caller when driven by [clock]:
    after some number [n] of ticks, each of which ran [frame] once,
    - the signals emitted are those of [arr], one each, in order;
    - no tick carries two emissions;
    - the first signal is emitted on the first tick;
    - consecutive emissions are [max(280, stepMs)] apart or more;
    - [onDone] has run once, that long or more after the last emission;
    - and further ticks add nothing. *)
Definition playbackContract (arr : list Color) (step : Z) (clock : nat → Z)
  : Prop :=
  ∃ n,
    let log := playSequenceWithRaf_log arr step (ticks clock n) in
    log.*1 = ticks clock n
    ∧ (emissions log).*2 = Some <$> arr
    ∧ NoDup (emissions log).*1
    ∧ head (emissions log) = Some (clock 0%nat, head arr)
    ∧ spaced (Z.max 280 step) (emissions log).*1
    ∧ (∃ td tl, completions log = [td] ∧ last (emissions log).*1 = Some tl
                ∧ Z.max 280 step ≤ td - tl)
    ∧ ∀ m, (n ≤ m)%nat →
        playSequenceWithRaf_log arr step (ticks clock m) = log.

(** A clock whose first frame carries the timestamp 0. *)
Definition clockFromZero (n : nat) : Z :=
  match n with
  | O => 0
  | S k => 16 + 700 * Z.of_nat k
  end.

(** The world driven by frames only. *)
Definition runFrames (tss : list Z) (w : World) : World :=
  foldl (λ w ts, animationFrame ts w) w tss.

(** The player enters the signals [cs] one after the other. *)
Definition pressAll (cs : list Color) (w : World) : World :=
  foldl (λ w c, onPadPress c w) w cs.

(** The two outcomes of a completed round, seen from outside. *)
Definition levelAdvanced (w w' : World) : Prop :=
  levelIndex (st w') = S (levelIndex (st w))
  ∧ screen (st w') = game
  ∧ timeouts w' = S (timeouts w)
  ∧ statusText (dom w') = Some "Great! Next level...".

Definition victoryReached (w w' : World) : Prop :=
  screen (st w') = victory
  ∧ levelIndex (st w') = levelIndex (st w)
  ∧ timeouts w' = timeouts w
  ∧ victoryScoreEl (dom w') = Some (score (st w')).

(** The k-th colour [randColor] returns from world [w] on. *)
Definition drawn (w : World) (k : nat) : Color :=
  default red (COLORS !! (random w (draws w + k) `mod` length COLORS)%nat).

(** A pad press that completes the current round: it is evaluated, it is
    the expected signal, and it is the last one of the sequence. *)
Definition completesRound (color : Color) (w : World) : bool :=
  negb (padIgnored (st w))
  && bool_decide (currentSequence w !! inputIndex (st w) = Some color)
  && (length (currentSequence w) <=? inputIndex (st w) + 1)%nat.

(** Rounds completed in the current run along a trace of events, [n]
    being the count on entry; a run starts with a level button. *)
Fixpoint roundsCompleted (evs : list Event) (w : World) (n : nat) : nat :=
  match evs with
  | [] => n
  | e :: rest =>
      match dispatch e w with
      | None => n
      | Some w' =>
          roundsCompleted rest w'
            match e with
            | ClickLevel _ => O
            | ClickPad c => if completesRound c w then S n else n
            | _ => n
            end
      end
  end.

(** One round played through: the frames of the playback at the pace of
    the level, then the presses. *)
Definition playThrough (t0 step : Z) (signals : list Color) : list Event :=
  (AnimationFrame <$>
     ((λ k, t0 + step * Z.of_nat k) <$> seq 0 (S (length signals))))
  ++ (ClickPad <$> signals).

(** A whole run from level 1 to Victory with the draws 0, 1, 2, ...:
    the sequence is red, blue, green, yellow, red, blue, green. *)
Definition winningRun : list Event :=
  [ClickStart; ClickLevel 0]
  ++ playThrough 1000 700 [red; blue; green]
  ++ [Timeout]
  ++ playThrough 10000 620 [red; blue; green; yellow]
  ++ [Timeout]
  ++ playThrough 20000 540 [red; blue; green; yellow; red]
  ++ [Timeout]
  ++ playThrough 30000 470 [red; blue; green; yellow; red; blue]
  ++ [Timeout]
  ++ playThrough 40000 400 [red; blue; green; yellow; red; blue; green].

(** The scenario of a lost first round: sequence red, blue, green;
    the player enters red, green. *)
Definition lostRun : list Event :=
  [ClickStart; ClickLevel 0]
  ++ (AnimationFrame <$> [1000; 1700; 2400; 3100])
  ++ [ClickPad red; ClickPad green].

(** A new run started while the playback of the previous one is still
    registered, then the frames that finish the older playback. *)
Definition overlappingRuns : list Event :=
  [ClickStart; ClickLevel 0; AnimationFrame 1000; AnimationFrame 1700;
   ClickLevel 0; AnimationFrame 2400; AnimationFrame 3100].

(** The claim that starting a run or entering a menu cancels what is
    pending: nothing registered before the event is registered after. *)
Definition cancelsPending : Prop :=
  ∀ rnd w e w',
    reachable rnd w →
    startsRunOrEntersMenu e = true →
    dispatch e w = Some w' →
    (∀ c, c ∈ rafQueue w → c ∉ rafQueue w') ∧ timeouts w' = 0%nat.

(** What frames never touch: the progress of the run, the arrays, the
    timers and the random source. *)
Definition keepsProgress (w w' : World) : Prop :=
  score (st w') = score (st w)
  ∧ levelIndex (st w') = levelIndex (st w)
  ∧ sequence (st w') = sequence (st w)
  ∧ screen (st w') = screen (st w)
  ∧ musicEnabled (st w') = musicEnabled (st w)
  ∧ arrays w' = arrays w
  ∧ nextRef w' = nextRef w
  ∧ timeouts w' = timeouts w
  ∧ draws w' = draws w
  ∧ random w' = random w
  ∧ finalScoreEl (dom w') = finalScoreEl (dom w)
  ∧ victoryScoreEl (dom w') = victoryScoreEl (dom w).

(** The number of pending registrations. *)
Definition pendingCount (w : World) : nat :=
  (length (rafQueue w) + timeouts w)%nat.

(** What holds of every state reachable through the page: at most one
    registration is pending, and while one is, the game screen is up and
    input is not accepted. *)
Definition oneThingAtATime (w : World) : Prop :=
  (pendingCount w ≤ 1)%nat
  ∧ (pendingCount w ≠ 0%nat →
     acceptingInput (st w) = false ∧ screen (st w) = game).

(** On the Victory screen the recorded score is the score. *)
Definition victoryRecorded (w : World) : Prop :=
  screen (st w) = victory → victoryScoreEl (dom w) = Some (score (st w)).

(** Sample worlds: the level selection after Start, and the first round
    of a run from level 1 at the moment the player may answer (draws
    0, 1, 2: the sequence red, blue, green). *)
Definition atLevelSelect : World :=
  showScreen levels (initialWorld (λ n, n)).

Definition yourTurn : World :=
  default (initialWorld (λ n, n))
    (run ([ClickStart; ClickLevel 0]
            ++ (AnimationFrame <$> [1000; 1700; 2400; 3100]))
       (initialWorld (λ n, n))).

(** Helpers for stating the pace of a playback: the ticks from index
    [i] on, and a recursive form of [spaced] that carries the previous
    emission time. *)
Definition ticksFrom (clock : nat → Z) (i n : nat) : list Z :=
  clock <$> seq i n.

Fixpoint spacedFrom (M prev : Z) (ts : list Z) : Prop :=
  match ts with
  | [] => True
  | t :: rest => M ≤ t - prev ∧ spacedFrom M t rest
  end.

(** Invariants of the states reachable from [init()]. *)

(** The cursor is inside the sequence or just past its end. *)
Definition cursorInRange (w : World) : Prop :=
  (inputIndex (st w) ≤ length (currentSequence w))%nat.

(** Once a run has been started, the sequence is as long as the catalog
    says for the current level. *)
Definition lengthOfLevel (w : World) : Prop :=
  currentSequence w = []
  ∨ sequenceLength <$> LEVELS !! levelIndex (st w)
    = Some (length (currentSequence w)).

(** On the GameOver screen the recorded score is the score. *)
Definition gameoverRecorded (w : World) : Prop :=
  screen (st w) = gameover → finalScoreEl (dom w) = Some (score (st w)).

(** The HUD shows the current level and score. *)
Definition hudInSync (w : World) : Prop :=
  scoreEl (dom w) = Some (score (st w))
  ∧ levelEl (dom w) = id <$> LEVELS !! levelIndex (st w).

(** What a frame does to the cursor and the HUD: the cursor stays or is
    reset to 0, the HUD stays. *)
Definition frameTouch (w w' : World) : Prop :=
  (inputIndex (st w') = inputIndex (st w) ∨ inputIndex (st w') = 0%nat)
  ∧ scoreEl (dom w') = scoreEl (dom w)
  ∧ levelEl (dom w') = levelEl (dom w).

(** The calls a playback makes for the signals [xs]. *)
Definition signalEffects (xs : list (option Color)) : list Effect :=
  xs ≫= λ x, [GlowPad x; PlayColorSound x].

(** * The playback engine *)

Section Frame.
Variable arr : list Color.


Lemma frame_wait c ts :
  lastStamp c ≠ 0 → ts - lastStamp c < minInterval c →
  frame arr c ts = (c, Wait).
Proof.
  intros H0 Hlt. unfold frame.
  destruct (Z.eqb_spec (lastStamp c) 0); [done|].
  destruct (Z.leb_spec (minInterval c) (ts - lastStamp c)); [lia|done].
Qed.

Lemma frame_emit c ts :
  lastStamp c ≠ 0 → minInterval c ≤ ts - lastStamp c →
  (idx c < length arr)%nat →
  frame arr c ts = (emitted c ts, Emit (arr !! idx c)).
Proof.
  intros H0 Hle Hidx. unfold frame.
  destruct (Z.eqb_spec (lastStamp c) 0); [done|].
  destruct (Z.leb_spec (minInterval c) (ts - lastStamp c)); [|lia].
  destruct (Nat.leb_spec (length arr) (idx c)); [lia|done].
Qed.

Lemma frame_done c ts :
  lastStamp c ≠ 0 → minInterval c ≤ ts - lastStamp c →
  (length arr ≤ idx c)%nat →
  frame arr c ts = (c, Done).
Proof.
  intros H0 Hle Hidx. unfold frame.
  destruct (Z.eqb_spec (lastStamp c) 0); [done|].
  destruct (Z.leb_spec (minInterval c) (ts - lastStamp c)); [|lia].
  destruct (Nat.leb_spec (length arr) (idx c)); [done|lia].
Qed.
End Frame.

Lemma emissions_waits (tss : list Z) log :
  emissions (((λ t, (t, Wait)) <$> tss) ++ log) = emissions log.
Proof. induction tss as [|t tss IH]; [done|]. simpl. exact IH. Qed.

Lemma completions_waits (tss : list Z) log :
  completions (((λ t, (t, Wait)) <$> tss) ++ log) = completions log.
Proof. induction tss as [|t tss IH]; [done|]. simpl. exact IH. Qed.

Lemma emissions_emit t x log :
  emissions ((t, Emit x) :: log) = (t, x) :: emissions log.
Proof. done. Qed.

Lemma completions_emit t x log :
  completions ((t, Emit x) :: log) = completions log.
Proof. done. Qed.

Lemma waits_ticks (tss : list Z) : ((λ t, (t, Wait)) <$> tss).*1 = tss.
Proof. induction tss as [|t tss IH]; [done|]. simpl. by f_equal. Qed.

Lemma ticksFrom_snoc clock i n :
  ticksFrom clock i (S n) = ticksFrom clock i n ++ [clock (i + n)%nat].
Proof. unfold ticksFrom. by rewrite seq_S, fmap_app. Qed.

Lemma ticksFrom_app clock i n m :
  ticksFrom clock i (n + m) =
  ticksFrom clock i n ++ ticksFrom clock (i + n) m.
Proof. unfold ticksFrom. by rewrite seq_app, fmap_app. Qed.

Lemma increasing_le clock i d : increasing clock → clock i ≤ clock (i + d)%nat.
Proof.
  intros Hinc. induction d as [|d IH].
  - rewrite Nat.add_0_r. lia.
  - rewrite Nat.add_succ_r. specialize (Hinc (i + d)%nat). lia.
Qed.

(** On an integer clock that keeps increasing, the interval elapses. *)
Lemma interval_elapses clock prev M :
  increasing clock →
  ∀ (b : nat) (i : nat), M - (clock i - prev) ≤ Z.of_nat b →
    ∃ d, (∀ l, (i ≤ l < i + d)%nat → clock l - prev < M)
         ∧ M ≤ clock (i + d)%nat - prev.
Proof.
  intros Hinc. induction b as [|b IH]; intros i Hb.
  - exists 0%nat. split; [lia|]. rewrite Nat.add_0_r. lia.
  - destruct (decide (M ≤ clock i - prev)) as [Hle|Hlt].
    + exists 0%nat. split; [lia|]. by rewrite Nat.add_0_r.
    + destruct (IH (S i)) as (d & Hw & Hd).
      { specialize (Hinc i). lia. }
      exists (S d). split.
      * intros l Hl. destruct (decide (l = i)) as [->|]; [lia|].
        apply Hw. lia.
      * by rewrite Nat.add_succ_r.
Qed.

Lemma playFrames_waits arr c clock :
  lastStamp c ≠ 0 →
  ∀ d i rest,
    (∀ l, (i ≤ l < i + d)%nat → clock l - lastStamp c < minInterval c) →
    playFrames arr c (ticksFrom clock i d ++ rest) =
    ((λ t, (t, Wait)) <$> ticksFrom clock i d) ++ playFrames arr c rest.
Proof.
  intros H0. induction d as [|d IH]; intros i rest Hw; [done|].
  unfold ticksFrom in *. simpl.
  rewrite frame_wait by (try apply Hw; (done || lia)).
  f_equal. apply IH. intros l Hl. apply Hw. lia.
Qed.

Lemma default_last_cons {A} (a x : A) l :
  default a (last (x :: l)) = default x (last l).
Proof. rewrite last_cons. by destruct (last l). Qed.

Lemma spacedFrom_spaced M t ts : spacedFrom M t ts → spaced M (t :: ts).
Proof.
  revert t. induction ts as [|u ts IH]; intros t H i a b Hi HSi.
  - by destruct i.
  - destruct H as [Hle Hrest]. destruct i as [|i]; simpl in *.
    + by simplify_eq.
    + by eapply (IH u Hrest i).
Qed.

Lemma spacedFrom_later M t ts :
  0 < M → spacedFrom M t ts → Forall (λ x, t < x) ts.
Proof.
  intros HM. revert t. induction ts as [|u ts IH]; intros t H; [constructor|].
  destruct H as [Hle Hrest]. constructor; [lia|].
  eapply Forall_impl; [by apply IH|]. simpl. intros; lia.
Qed.

Lemma spacedFrom_NoDup M t ts : 0 < M → spacedFrom M t ts → NoDup (t :: ts).
Proof.
  intros HM. revert t. induction ts as [|u ts IH]; intros t H.
  - apply NoDup_singleton.
  - constructor.
    + intros Hin. pose proof (spacedFrom_later M t _ HM H) as Hall.
      rewrite Forall_forall in Hall. specialize (Hall _ Hin). lia.
    + apply IH. by destruct H.
Qed.

(** The engine once the first signal is out: it waits for the interval,
    emits the next signal of the array, and after the last one waits
    once more before calling [onDone]. *)
Lemma playFrames_steady arr clock :
  increasing clock →
  ∀ (k : nat) c i,
    (length arr - idx c)%nat = k → (idx c ≤ length arr)%nat →
    0 < lastStamp c → lastStamp c < clock i →
    ∃ n log,
      (∀ more, playFrames arr c (ticksFrom clock i n ++ more) = log)
      ∧ log.*1 = ticksFrom clock i n
      ∧ (emissions log).*2 = Some <$> drop (idx c) arr
      ∧ spacedFrom (minInterval c) (lastStamp c) (emissions log).*1
      ∧ ∃ td, completions log = [td]
              ∧ minInterval c ≤
                td - default (lastStamp c) (last (emissions log).*1).
Proof.
  intros Hinc. induction k as [|k IH]; intros c i Hk Hidx Hpos Hlt.
  - destruct (interval_elapses clock (lastStamp c) (minInterval c) Hinc
                (Z.to_nat (minInterval c - (clock i - lastStamp c))) i)
      as (d & Hw & Hd); [lia|].
    exists (S d), (((λ t, (t, Wait)) <$> ticksFrom clock i d)
                   ++ [(clock (i + d)%nat, Done)]).
    split; [|split; [|split; [|split]]].
    + intros more. rewrite ticksFrom_snoc, <-app_assoc.
      rewrite playFrames_waits by (done || lia). simpl.
      rewrite frame_done by (done || lia). done.
    + by rewrite fmap_app, waits_ticks, ticksFrom_snoc.
    + rewrite emissions_waits. simpl. by rewrite drop_ge by lia.
    + by rewrite emissions_waits.
    + exists (clock (i + d)%nat). rewrite completions_waits, emissions_waits.
      done.
  - destruct (interval_elapses clock (lastStamp c) (minInterval c) Hinc
                (Z.to_nat (minInterval c - (clock i - lastStamp c))) i)
      as (d & Hw & Hd); [lia|].
    pose proof (increasing_le clock i d Hinc) as Hmono.
    destruct (IH (emitted c (clock (i + d)%nat)) (S (i + d)))
      as (n & log & Hrun & Hticks & Hsig & Hsp & td & Hdone & Hlate).
    { simpl. lia. } { simpl. lia. } { simpl. lia. }
    { simpl. apply Hinc. }
    simpl in *.
    destruct (lookup_lt_is_Some_2 arr (idx c)) as [x Hx]; [lia|].
    exists (d + S n)%nat,
      (((λ t, (t, Wait)) <$> ticksFrom clock i d)
         ++ (clock (i + d)%nat, Emit (Some x)) :: log).
    split; [|split; [|split; [|split]]].
    + intros more. rewrite ticksFrom_app, <-app_assoc.
      rewrite playFrames_waits by (done || lia).
      f_equal. unfold ticksFrom at 1. simpl.
      rewrite frame_emit by (done || lia). rewrite Hx. f_equal.
      apply Hrun.
    + rewrite fmap_app, waits_ticks, ticksFrom_app. f_equal.
      unfold ticksFrom at 1. simpl. f_equal. exact Hticks.
    + rewrite emissions_waits, emissions_emit, fmap_cons, Hsig.
      by rewrite (drop_S _ _ _ Hx).
    + rewrite emissions_waits, emissions_emit, fmap_cons. by split.
    + exists td. rewrite completions_waits, emissions_waits.
      rewrite completions_emit, emissions_emit, fmap_cons.
      split; [done|]. by rewrite default_last_cons.
Qed.

Lemma ticks_S clock n : ticks clock (S n) = clock 0%nat :: ticksFrom clock 1 n.
Proof. done. Qed.

Lemma ticks_split clock n m :
  (n ≤ m)%nat → ticks clock m = ticks clock n ++ ticksFrom clock n (m - n).
Proof.
  intros Hle. replace m with (n + (m - n))%nat at 1 by lia.
  apply (ticksFrom_app clock 0).
Qed.

(** With every timestamp positive, a playback over a non-empty array
    meets its contract. *)
Theorem playback_positive_clock arr step clock :
  arr ≠ [] → 0 < clock 0%nat → increasing clock →
  playbackContract arr step clock.
Proof.
  intros Hne Hpos Hinc.
  destruct arr as [|a arr']; [done|]. set (arr := a :: arr') in *.
  set (c1 := emitted (newClosure 0 step RoundDone) (clock 0%nat)).
  destruct (playFrames_steady arr clock Hinc (length arr - 1) c1 1)
    as (n & log & Hrun & Hticks & Hsig & Hsp & td & Hdone & Hlate).
  { done. } { simpl. lia. } { done. } { apply Hinc. }
  assert (Hlog : ∀ more,
    playSequenceWithRaf_log arr step (clock 0%nat :: ticksFrom clock 1 n ++ more)
    = (clock 0%nat, Emit (Some a)) :: log).
  { intros more. unfold playSequenceWithRaf_log. simpl.
    f_equal. apply Hrun. }
  assert (HM : 0 < Z.max 280 step) by lia.
  exists (S n). cbv zeta.
  rewrite ticks_S. pose proof (Hlog []) as Hlog0. rewrite app_nil_r in Hlog0.
  rewrite !Hlog0, emissions_emit, !fmap_cons. simpl in Hsig, Hsp, Hlate.
  rewrite drop_0 in Hsig.
  split; [by rewrite Hticks|]. split; [by rewrite Hsig|].
  split; [by eapply spacedFrom_NoDup|]. split; [done|].
  split; [by apply spacedFrom_spaced|]. split.
  - exists td, (default (clock 0%nat) (last (emissions log).*1)).
    split; [done|]. split; [|done].
    rewrite last_cons. by destruct (last (emissions log).*1).
  - intros m Hm. rewrite (ticks_split clock (S n) m Hm), ticks_S.
    rewrite <-app_comm_cons. apply Hlog.
Qed.

Lemma clockFromZero_increasing : increasing clockFromZero.
Proof. intros [|n]; simpl; lia. Qed.

(** C1 (fails on the code at a first timestamp of 0).  The claim asks
    the playback contract of every increasing clock of non-negative
    timestamps.  [frame] tells "no emission yet" by [!lastStamp], which
    also holds after an emission at timestamp 0: on the clock 0, 16,
    716, 1416 the second signal goes out on the second tick, 16 ms
    after the first instead of at least max(280, 700) = 700 ms, so the
    emissions are not spaced and the contract does not hold.
    [playback_positive_clock] shows the contract for every clock that
    starts above 0. *)
Theorem playback_zero_first_tick :
  0 ≤ clockFromZero 0
  ∧ increasing clockFromZero
  ∧ playSequenceWithRaf_log [red; blue; green] 700 (ticks clockFromZero 4)
    = [(0, Emit (Some red)); (16, Emit (Some blue));
       (716, Emit (Some green)); (1416, Done)]
  ∧ ¬ spaced (Z.max 280 700)
        (emissions (playSequenceWithRaf_log [red; blue; green] 700
                      (ticks clockFromZero 4))).*1
  ∧ ¬ playbackContract [red; blue; green] 700 clockFromZero.
Proof.
  split; [done|]. split; [apply clockFromZero_increasing|].
  split; [by vm_compute|]. split.
  - intros Hsp. specialize (Hsp 0%nat 0 16 eq_refl eq_refl). lia.
  - intros (n & _ & Hsig & _ & _ & Hsp & _).
    destruct n as [|[|n]]; [done..|].
    specialize (Hsp 0%nat 0 16 eq_refl eq_refl). lia.
Qed.

(** * The round state machine *)

(** ** What each handler leaves behind *)

Lemma st_sequencePush w : st (sequencePush w) = st w.
Proof. done. Qed.

Lemma st_pushColors n w : st (pushColors n w) = st w.
Proof. revert w. induction n as [|n IH]; intros w; [done|]. simpl. by rewrite IH. Qed.

Lemma rafQueue_pushColors n w : rafQueue (pushColors n w) = rafQueue w.
Proof. revert w. induction n as [|n IH]; intros w; [done|]. simpl. by rewrite IH. Qed.

Lemma timeouts_pushColors n w : timeouts (pushColors n w) = timeouts w.
Proof. revert w. induction n as [|n IH]; intros w; [done|]. simpl. by rewrite IH. Qed.

Lemma beginRound_Some w lvl :
  LEVELS !! levelIndex (st w) = Some lvl →
  beginRound w =
  Some (playSequenceWithRaf (sequence (st w)) (stepMs lvl) RoundDone
          (setDom (withStatusText "Watch the sequence...")
             (setDom (withHud (id lvl) (score (st w)))
                (setState (withInputIndex 0)
                   (setState (withIsAnimatingSequence true)
                      (setState (withAcceptingInput false) w)))))).
Proof.
  intros Hlvl. unfold beginRound, updateHud. simpl. rewrite Hlvl. simpl.
  by rewrite Hlvl.
Qed.

Lemma beginRound_inv w w' :
  beginRound w = Some w' →
  ∃ lvl, LEVELS !! levelIndex (st w) = Some lvl
    ∧ w' = playSequenceWithRaf (sequence (st w)) (stepMs lvl) RoundDone
          (setDom (withStatusText "Watch the sequence...")
             (setDom (withHud (id lvl) (score (st w)))
                (setState (withInputIndex 0)
                   (setState (withIsAnimatingSequence true)
                      (setState (withAcceptingInput false) w))))).
Proof.
  intros H. destruct (LEVELS !! levelIndex (st w)) as [lvl|] eqn:Hlvl.
  - exists lvl. split; [done|]. rewrite (beginRound_Some w lvl Hlvl) in H.
    by simplify_eq.
  - unfold beginRound, updateHud in H. simpl in H. by rewrite Hlvl in H.
Qed.

Lemma startRunFromLevel_inv index w w' :
  startRunFromLevel index w = Some w' →
  ∃ lvl, LEVELS !! index = Some lvl
    ∧ beginRound
        (showScreen game
           (pushColors (sequenceLength lvl)
              (setState (withSequence (nextRef w))
                 (newArray
                    (setState (withScore 0)
                       (setState (withLevelIndex index) w)))))) = Some w'.
Proof.
  unfold startRunFromLevel. simpl.
  destruct (LEVELS !! index) as [lvl|]; [|done]. simpl. eauto.
Qed.

(** A round or a replay under way has the flags (false, true). *)
Lemma beginRound_flags w w' :
  beginRound w = Some w' →
  acceptingInput (st w') = false ∧ isAnimatingSequence (st w') = true
  ∧ inputIndex (st w') = 0%nat ∧ screen (st w') = screen (st w)
  ∧ score (st w') = score (st w) ∧ levelIndex (st w') = levelIndex (st w)
  ∧ sequence (st w') = sequence (st w) ∧ arrays w' = arrays w
  ∧ timeouts w' = timeouts w
  ∧ ∃ lvl, LEVELS !! levelIndex (st w) = Some lvl
      ∧ rafQueue w' =
        rafQueue w ++ [newClosure (sequence (st w)) (stepMs lvl) RoundDone].
Proof.
  intros (lvl & Hlvl & ->)%beginRound_inv. simpl. repeat split; eauto.
Qed.

Lemma advanceLevelOrWin_flags w :
  acceptingInput (st (advanceLevelOrWin w)) = acceptingInput (st w)
  ∧ isAnimatingSequence (st (advanceLevelOrWin w)) = isAnimatingSequence (st w)
  ∧ score (st (advanceLevelOrWin w)) = score (st w) + 100
  ∧ rafQueue (advanceLevelOrWin w) = rafQueue w.
Proof. unfold advanceLevelOrWin. simpl. by case_match. Qed.

Lemma onPadPress_ignored color w :
  padIgnored (st w) = true → onPadPress color w = w.
Proof. intros H. unfold onPadPress. by rewrite H. Qed.

Lemma padIgnored_false s :
  padIgnored s = false ↔
  acceptingInput s = true ∧ isAnimatingSequence s = false ∧ screen s = game.
Proof.
  unfold padIgnored. destruct (acceptingInput s), (isAnimatingSequence s);
    simpl; try case_bool_decide; simpl; intuition congruence.
Qed.

Lemma replayIgnored_false s :
  replayIgnored s = false ↔
  acceptingInput s = true ∧ isAnimatingSequence s = false ∧ screen s = game.
Proof.
  unfold replayIgnored. destruct (acceptingInput s), (isAnimatingSequence s);
    case_bool_decide; simpl; intuition congruence.
Qed.

Lemma onPadPress_flags color w :
  flagsExclusive (st w) → flagsExclusive (st (onPadPress color w)).
Proof.
  intros Hex. unfold onPadPress. case_match; [done|].
  simpl. case_bool_decide.
  - unfold flagsExclusive. simpl. intuition congruence.
  - case_match.
    + destruct (advanceLevelOrWin_flags
        (setState (withAcceptingInput false)
           (setState (withInputIndex (inputIndex (st w) + 1)%nat)
              (playColorSound (Some color) (glowPad (Some color) w)))))
        as (Ha & _).
      unfold flagsExclusive. rewrite Ha. simpl. intuition congruence.
    + done.
Qed.

Lemma runDone_flags cb w : flagsExclusive (st (runDone cb w)).
Proof. unfold flagsExclusive. destruct cb; simpl; intuition congruence. Qed.

Lemma runFrame_flags ts w c :
  flagsExclusive (st w) → flagsExclusive (st (runFrame ts w c)).
Proof.
  intros Hex. unfold runFrame. destruct (frame _ c ts) as [c' [x| |]]; simpl;
    [done..|]. apply runDone_flags.
Qed.

Lemma animationFrame_flags ts w :
  flagsExclusive (st w) → flagsExclusive (st (animationFrame ts w)).
Proof.
  unfold animationFrame. intros Hex.
  assert (Hq : flagsExclusive (st (setRafQueue [] w))) by done.
  revert Hq. generalize (setRafQueue [] w). generalize (rafQueue w).
  intros q. induction q as [|c q IH]; intros v Hv; [done|].
  simpl. apply IH. by apply runFrame_flags.
Qed.

Lemma dispatch_flags e w w' :
  flagsExclusive (st w) → dispatch e w = Some w' → flagsExclusive (st w').
Proof.
  intros Hex He. destruct e; simpl in He; simplify_eq; try done.
  - apply startRunFromLevel_inv in He as (lvl & _ & Hb).
    apply beginRound_flags in Hb as (Ha & _).
    unfold flagsExclusive. rewrite Ha. intuition congruence.
  - unfold onReplayClick in He. case_match; [by simplify_eq|].
    simpl in He. destruct (LEVELS !! _); simplify_eq/=.
    unfold flagsExclusive. simpl. intuition congruence.
  - by apply onPadPress_flags.
  - unfold timeoutFires in He. case_match; [by simplify_eq|].
    apply beginRound_flags in He as (Ha & _).
    unfold flagsExclusive. rewrite Ha. intuition congruence.
  - by apply animationFrame_flags.
Qed.

(** C2.  [acceptingInput] and [isAnimatingSequence] are never both
    true: every event handler (run start, playback completion inside a
    frame, pad press, replay, timer, navigation, music) preserves the
    exclusion, and so it holds in every state reachable from [init()],
    whatever the order of the events. *)
Theorem flags_never_both_true :
  (∀ e w w', flagsExclusive (st w) → dispatch e w = Some w' →
             flagsExclusive (st w'))
  ∧ (∀ rnd w, reachable rnd w →
       ¬ (acceptingInput (st w) = true ∧ isAnimatingSequence (st w) = true)).
Proof.
  split; [apply dispatch_flags|].
  intros rnd w Hr. change (flagsExclusive (st w)).
  induction Hr as [|w e w' _ IH He].
  - unfold flagsExclusive. simpl. intuition congruence.
  - by eapply dispatch_flags.
Qed.

(** ** Pad presses *)

(** C6.  A pad press that arrives when the state is not
    (game screen, accepting input, not animating) is dropped: the
    handler returns normally and the world, effect log included, is
    exactly what it was. *)
Theorem pad_press_outside_input_mode_ignored color w :
  ¬ (screen (st w) = game ∧ acceptingInput (st w) = true
     ∧ isAnimatingSequence (st w) = false) →
  dispatch (ClickPad color) w = Some w.
Proof.
  intros Hnot. simpl. f_equal. apply onPadPress_ignored.
  destruct (padIgnored (st w)) eqn:Hg; [done|].
  apply padIgnored_false in Hg. intuition.
Qed.

Lemma onPadPress_mismatch color w :
  padIgnored (st w) = false →
  currentSequence w !! inputIndex (st w) ≠ Some color →
  onPadPress color w =
  showScreen gameover
    (setDom (withFinalScoreEl (score (st w)))
       (playWrongSound
          (setState (withAcceptingInput false)
             (playColorSound (Some color) (glowPad (Some color) w))))).
Proof.
  intros Hg Hne. unfold onPadPress. rewrite Hg. simpl.
  change (currentSequence (playColorSound _ _)) with (currentSequence w).
  by rewrite bool_decide_true by (intros E; by apply Hne).
Qed.

Lemma onPadPress_match color w :
  padIgnored (st w) = false →
  currentSequence w !! inputIndex (st w) = Some color →
  (S (inputIndex (st w)) < length (currentSequence w))%nat →
  onPadPress color w =
  setState (withInputIndex (inputIndex (st w) + 1))
    (playColorSound (Some color) (glowPad (Some color) w)).
Proof.
  intros Hg Heq Hlt. unfold onPadPress. rewrite Hg. simpl.
  change (currentSequence (playColorSound _ _)) with (currentSequence w).
  rewrite bool_decide_false by (intros Hne; by apply Hne).
  unfold currentSequence, deref in Hlt.
  by rewrite (proj2 (Nat.leb_gt _ _)) by lia.
Qed.

Lemma onPadPress_last color w :
  padIgnored (st w) = false →
  currentSequence w !! inputIndex (st w) = Some color →
  (length (currentSequence w) ≤ S (inputIndex (st w)))%nat →
  onPadPress color w =
  advanceLevelOrWin
    (setState (withAcceptingInput false)
       (setState (withInputIndex (inputIndex (st w) + 1))
          (playColorSound (Some color) (glowPad (Some color) w)))).
Proof.
  intros Hg Heq Hlt. unfold onPadPress. rewrite Hg. simpl.
  change (currentSequence (playColorSound _ _)) with (currentSequence w).
  rewrite bool_decide_false by (intros Hne; by apply Hne).
  unfold currentSequence, deref in Hlt.
  by rewrite (proj2 (Nat.leb_le _ _)) by lia.
Qed.

Lemma pressAll_snoc cs c w :
  pressAll (cs ++ [c]) w = onPadPress c (pressAll cs w).
Proof. unfold pressAll. by rewrite foldl_app. Qed.

(** Correct signals short of the last one only move the cursor (and
    give feedback). *)
Lemma pressAll_correct_prefix w :
  padIgnored (st w) = false →
  ∀ k, (k = 0 ∨ inputIndex (st w) + k < length (currentSequence w))%nat →
    ∃ es,
      pressAll (take k (drop (inputIndex (st w)) (currentSequence w))) w
      = setState (withInputIndex (inputIndex (st w) + k)) (perform es w).
Proof.
  intros Hg. induction k as [|k IH]; intros Hk.
  - exists []. rewrite take_0. unfold pressAll, setState, perform. simpl.
    rewrite Nat.add_0_r, app_nil_r. by destruct w as [[] ? ? ? ? ? ? ? ?].
  - destruct IH as [es Hes]; [lia|].
    destruct (lookup_lt_is_Some_2 (currentSequence w)
                (inputIndex (st w) + k)) as [x Hx]; [lia|].
    rewrite (take_S_r _ _ x) by (by rewrite lookup_drop).
    rewrite pressAll_snoc, Hes.
    rewrite onPadPress_match;
      [|done|done|unfold currentSequence, deref in *; simpl; lia].
    exists (es ++ [GlowPad (Some x); PlayColorSound (Some x)]).
    unfold setState, perform, playColorSound, glowPad. simpl.
    rewrite <-!app_assoc. simpl.
    by replace (inputIndex (st w) + k + 1)%nat
      with (inputIndex (st w) + S k)%nat by lia.
Qed.

Lemma pressAll_then_mismatch w color k :
  padIgnored (st w) = false →
  (k = 0 ∨ inputIndex (st w) + k < length (currentSequence w))%nat →
  currentSequence w !! (inputIndex (st w) + k)%nat ≠ Some color →
  let w' :=
    pressAll (take k (drop (inputIndex (st w)) (currentSequence w))
                ++ [color]) w in
  acceptingInput (st w') = false
  ∧ (∃ es, effects w' =
           effects w ++ es ++
           [GlowPad (Some color); PlayColorSound (Some color);
            PlayWrongSound])
  ∧ finalScoreEl (dom w') = Some (score (st w))
  ∧ screen (st w') = gameover
  ∧ score (st w') = score (st w)
  ∧ levelIndex (st w') = levelIndex (st w)
  ∧ currentSequence w' = currentSequence w
  ∧ rafQueue w' = rafQueue w ∧ timeouts w' = timeouts w.
Proof.
  intros Hg Hk Hne w'. subst w'.
  destruct (pressAll_correct_prefix w Hg k Hk) as [es Hes].
  rewrite pressAll_snoc, Hes, onPadPress_mismatch by done. simpl.
  split; [done|]. split; [|done].
  exists es. by rewrite <-!app_assoc.
Qed.

(** ** Frames *)

Lemma keepsProgress_refl w : keepsProgress w w.
Proof. by repeat split. Qed.

Lemma keepsProgress_trans w1 w2 w3 :
  keepsProgress w1 w2 → keepsProgress w2 w3 → keepsProgress w1 w3.
Proof. unfold keepsProgress. intuition congruence. Qed.

Lemma runFrame_keeps ts w c : keepsProgress w (runFrame ts w c).
Proof.
  unfold runFrame. destruct (frame _ c ts) as [c' [x| |]]; [done..|].
  by destruct (c_onDone c).
Qed.

Lemma foldl_runFrame_keeps ts q w : keepsProgress w (foldl (runFrame ts) w q).
Proof.
  revert w. induction q as [|c q IH]; intros w; [apply keepsProgress_refl|].
  simpl. eapply keepsProgress_trans; [apply runFrame_keeps|apply IH].
Qed.

Lemma animationFrame_keeps ts w : keepsProgress w (animationFrame ts w).
Proof.
  unfold animationFrame.
  eapply keepsProgress_trans; [|apply foldl_runFrame_keeps]. done.
Qed.

Lemma runFrames_keeps tss w : keepsProgress w (runFrames tss w).
Proof.
  revert w. induction tss as [|ts tss IH]; intros w; [apply keepsProgress_refl|].
  simpl. eapply keepsProgress_trans; [apply animationFrame_keeps|apply IH].
Qed.

Lemma startRunFromLevel_score index w w' :
  startRunFromLevel index w = Some w' → score (st w') = 0.
Proof.
  intros (lvl & _ & Hb)%startRunFromLevel_inv.
  apply beginRound_flags in Hb as (_ & _ & _ & _ & -> & _).
  simpl. by rewrite st_pushColors.
Qed.

(** C5.  While input is accepted, a signal that differs from
    [sequence[inputIndex]], after any number [k] of correct ones, at
    once clears [acceptingInput], plays the wrong sound after the
    feedback of the pad, records the unchanged score as final score and
    shows GameOver; in a run just started (any frames later) the
    recorded score is 0. *)
Theorem mismatch_ends_the_run :
  (∀ w color k,
     padIgnored (st w) = false →
     (k = 0 ∨ inputIndex (st w) + k < length (currentSequence w))%nat →
     currentSequence w !! (inputIndex (st w) + k)%nat ≠ Some color →
     let w' :=
       pressAll (take k (drop (inputIndex (st w)) (currentSequence w))
                   ++ [color]) w in
     acceptingInput (st w') = false
     ∧ (∃ es, effects w' =
              effects w ++ es ++
              [GlowPad (Some color); PlayColorSound (Some color);
               PlayWrongSound])
     ∧ finalScoreEl (dom w') = Some (score (st w))
     ∧ screen (st w') = gameover
     ∧ score (st w') = score (st w))
  ∧ (∀ index w0 w1 tss color k,
       startRunFromLevel index w0 = Some w1 →
       let w := runFrames tss w1 in
       padIgnored (st w) = false →
       (k = 0 ∨ inputIndex (st w) + k < length (currentSequence w))%nat →
       currentSequence w !! (inputIndex (st w) + k)%nat ≠ Some color →
       let w' :=
         pressAll (take k (drop (inputIndex (st w)) (currentSequence w))
                     ++ [color]) w in
       screen (st w') = gameover
       ∧ finalScoreEl (dom w') = Some 0
       ∧ score (st w') = 0).
Proof.
  split.
  - intros w color k Hg Hk Hne w'.
    destruct (pressAll_then_mismatch w color k Hg Hk Hne)
      as (? & ? & ? & ? & ? & _). done.
  - intros index w0 w1 tss color k Hstart w Hg Hk Hne w'.
    destruct (pressAll_then_mismatch w color k Hg Hk Hne)
      as (_ & _ & Hfin & Hscr & Hsc & _).
    fold w' in Hfin, Hscr, Hsc.
    assert (score (st w) = 0) as H0.
    { destruct (runFrames_keeps tss w1) as (Hkeep & _). subst w.
      rewrite Hkeep. by eapply startRunFromLevel_score. }
    rewrite Hfin, Hsc, H0. done.
Qed.

(** The scenario: sequence red, blue, green; the player enters red,
    green. *)
Example lost_first_round_scores_zero :
  ∃ w, run lostRun (initialWorld (λ n, n)) = Some w
    ∧ currentSequence w = [red; blue; green]
    ∧ screen (st w) = gameover
    ∧ score (st w) = 0
    ∧ finalScoreEl (dom w) = Some 0.
Proof. eexists. split; [by vm_compute|]. by vm_compute. Qed.

(** ** Completing a round *)

Lemma currentSequence_sequencePush w :
  currentSequence (sequencePush w) = currentSequence w ++ [drawn w 0].
Proof.
  unfold currentSequence, deref, sequencePush, drawn. simpl.
  rewrite fn_lookup_insert. by rewrite Nat.add_0_r.
Qed.

(** C7.  On a level that is not the last, [advanceLevelOrWin] pushes
    one drawn colour onto the same array: the new sequence is the old
    one with one signal appended, one longer, equal to the old one at
    every old index. *)
Theorem advance_appends_one_signal w :
  levelIndex (st w) ≠ (length LEVELS - 1)%nat →
  let w' := advanceLevelOrWin w in
  sequence (st w') = sequence (st w)
  ∧ currentSequence w' = currentSequence w ++ [drawn w 0]
  ∧ length (currentSequence w') = S (length (currentSequence w))
  ∧ (∀ i, (i < length (currentSequence w))%nat →
          currentSequence w' !! i = currentSequence w !! i)
  ∧ levelIndex (st w') = S (levelIndex (st w)).
Proof.
  intros Hlvl w'.
  assert (Hseq : currentSequence w' = currentSequence w ++ [drawn w 0]).
  { subst w'. unfold advanceLevelOrWin. simpl.
    rewrite (proj2 (Nat.eqb_neq _ _)) by done.
    unfold currentSequence, deref, drawn. simpl.
    rewrite fn_lookup_insert. by rewrite Nat.add_0_r. }
  split; [|split; [done|split; [|split]]].
  - subst w'. unfold advanceLevelOrWin. simpl. by case_match.
  - rewrite Hseq, length_app. simpl. lia.
  - intros i Hi. rewrite Hseq. by apply lookup_app_l.
  - subst w'. unfold advanceLevelOrWin. simpl.
    rewrite (proj2 (Nat.eqb_neq _ _)) by done. simpl. lia.
Qed.

Lemma advanceLevelOrWin_last w :
  levelIndex (st w) = (length LEVELS - 1)%nat →
  advanceLevelOrWin w =
  showScreen victory
    (setDom (withVictoryScoreEl (score (st w) + 100))
       (setState (withScore (score (st w) + 100)) w)).
Proof.
  intros Hl. unfold advanceLevelOrWin. simpl.
  by rewrite (proj2 (Nat.eqb_eq _ _)) by done.
Qed.

Lemma advanceLevelOrWin_next w :
  levelIndex (st w) ≠ (length LEVELS - 1)%nat →
  let w3 := setDom (withStatusText "Great! Next level...")
              (sequencePush
                 (setState (withLevelIndex (levelIndex (st w) + 1))
                    (setState (withScore (score (st w) + 100)) w))) in
  advanceLevelOrWin w = setTimeouts (S (timeouts w3)) w3.
Proof.
  intros Hl. unfold advanceLevelOrWin. simpl.
  by rewrite (proj2 (Nat.eqb_neq _ _)) by done.
Qed.

(** The whole remainder of the sequence, entered correctly, ends in
    [advanceLevelOrWin]. *)
Lemma pressAll_correct_rest w :
  padIgnored (st w) = false →
  (inputIndex (st w) < length (currentSequence w))%nat →
  ∃ es,
    pressAll (drop (inputIndex (st w)) (currentSequence w)) w =
    advanceLevelOrWin
      (setState (withAcceptingInput false)
         (setState (withInputIndex (length (currentSequence w)))
            (perform es w))).
Proof.
  intros Hg Hlt.
  set (i := inputIndex (st w)) in *. set (sq := currentSequence w) in *.
  pose (k := (length sq - i - 1)%nat).
  assert (Hk : (i + k + 1)%nat = length sq) by (unfold k; lia).
  clearbody k.
  destruct (lookup_lt_is_Some_2 sq (i + k)) as [x Hx]; [lia|].
  assert (drop i sq = take k (drop i sq) ++ [x]) as ->.
  { rewrite <-(take_S_r _ _ x) by (by rewrite lookup_drop).
    symmetry. apply take_ge. rewrite length_drop. lia. }
  destruct (pressAll_correct_prefix w Hg k) as [es Hes]; [fold i sq; lia|].
  fold i sq in Hes. rewrite pressAll_snoc, Hes.
  rewrite onPadPress_last; [|done|done|].
  2:{ change (currentSequence (setState _ _)) with sq. simpl. fold i. lia. }
  exists (es ++ [GlowPad (Some x); PlayColorSound (Some x)]).
  f_equal. unfold setState, perform, playColorSound, glowPad. simpl.
  rewrite <-!app_assoc. simpl. fold i.
  by rewrite Hk.
Qed.

(** C4.  While input is accepted, entering the rest of the current
    sequence correctly (each signal equal to [sequence[inputIndex]] up
    to the end) adds exactly 100 to the score and has exactly one of two
    outcomes: Victory when [levelIndex] is the last catalog index, the
    level advance (next level, 650 ms timer) otherwise; never both. *)
Theorem correct_sequence_advances_or_wins w :
  padIgnored (st w) = false →
  (inputIndex (st w) < length (currentSequence w))%nat →
  let w' := pressAll (drop (inputIndex (st w)) (currentSequence w)) w in
  score (st w') = score (st w) + 100
  ∧ acceptingInput (st w') = false
  ∧ (levelIndex (st w) = (length LEVELS - 1)%nat →
       victoryReached w w' ∧ ¬ levelAdvanced w w')
  ∧ (levelIndex (st w) ≠ (length LEVELS - 1)%nat →
       levelAdvanced w w' ∧ ¬ victoryReached w w').
Proof.
  intros Hg Hlt w'. subst w'.
  pose proof (proj1 (padIgnored_false _) Hg) as (_ & _ & Hscr).
  destruct (pressAll_correct_rest w Hg Hlt) as [es ->].
  set (w1 := setState (withAcceptingInput false) _).
  destruct (advanceLevelOrWin_flags w1) as (Ha & _ & Hs & _).
  split; [by rewrite Hs|]. split; [by rewrite Ha|]. split.
  - intros Hl. rewrite advanceLevelOrWin_last by done.
    unfold victoryReached, levelAdvanced. simpl. intuition congruence.
  - intros Hl. rewrite advanceLevelOrWin_next by done.
    unfold victoryReached, levelAdvanced. simpl.
    intuition (try congruence; try lia).
Qed.

(** ** Starting a run *)

Lemma drawn_sequencePush w k : drawn (sequencePush w) k = drawn w (S k).
Proof. unfold drawn. simpl. by rewrite Nat.add_succ_r. Qed.

Lemma sequence_pushColors n w :
  sequence (st (pushColors n w)) = sequence (st w).
Proof. by rewrite st_pushColors. Qed.

Lemma currentSequence_pushColors n w :
  currentSequence (pushColors n w) =
  currentSequence w ++ (drawn w <$> seq 0 n).
Proof.
  revert w. induction n as [|n IH]; intros w.
  - simpl. by rewrite app_nil_r.
  - cbn [pushColors]. rewrite IH, currentSequence_sequencePush.
    rewrite <-app_assoc. f_equal. cbn [seq fmap list_fmap]. simpl. f_equal.
    rewrite <-fmap_S_seq, <-list_fmap_compose.
    apply list_fmap_ext. intros ? k _. apply drawn_sequencePush.
Qed.

(** C9.  For every index of the catalog, [startRunFromLevel] returns
    normally with score 0, that level index, a new array holding as many
    drawn colours as the level's [sequenceLength], the game screen, and
    the playback sub-mode: animating, not accepting, cursor 0, the
    playback of the new array registered. *)
Theorem start_run_generates_level_sequence w index lvl :
  LEVELS !! index = Some lvl →
  ∃ w', startRunFromLevel index w = Some w'
    ∧ score (st w') = 0
    ∧ levelIndex (st w') = index
    ∧ sequence (st w') = nextRef w
    ∧ currentSequence w' = (drawn w <$> seq 0 (sequenceLength lvl))
    ∧ length (currentSequence w') = sequenceLength lvl
    ∧ screen (st w') = game
    ∧ isAnimatingSequence (st w') = true
    ∧ acceptingInput (st w') = false
    ∧ inputIndex (st w') = 0%nat
    ∧ rafQueue w' =
      rafQueue w ++ [newClosure (nextRef w) (stepMs lvl) RoundDone].
Proof.
  intros Hlvl. unfold startRunFromLevel. simpl. rewrite Hlvl. simpl.
  set (w3 := setState (withSequence (nextRef w)) _).
  set (w4 := pushColors (sequenceLength lvl) w3).
  assert (Hst : st w4 = st w3) by apply st_pushColors.
  assert (Hsq : currentSequence (showScreen game w4) =
                drawn w <$> seq 0 (sequenceLength lvl)).
  { change (currentSequence (showScreen game w4)) with (currentSequence w4).
    unfold w4. rewrite currentSequence_pushColors.
    assert (currentSequence w3 = []) as ->.
    { unfold currentSequence, deref, w3. simpl. by rewrite fn_lookup_insert. }
    done. }
  erewrite beginRound_Some; [|simpl; rewrite Hst; exact Hlvl].
  eexists. split; [done|]. simpl. rewrite !Hst. simpl.
  unfold currentSequence, deref in *. simpl in *. rewrite Hst in Hsq.
  simpl in Hsq. rewrite Hsq.
  repeat split; try done.
  - by rewrite length_fmap, length_seq.
  - unfold w4. by rewrite rafQueue_pushColors.
Qed.

(** ** Pending registrations *)

Lemma animationFrame_idle ts w : rafQueue w = [] → animationFrame ts w = w.
Proof.
  intros Hq. unfold animationFrame. rewrite Hq. simpl.
  unfold setRafQueue. rewrite <-Hq. by destruct w.
Qed.

Lemma runFrames_idle tss w : rafQueue w = [] → runFrames tss w = w.
Proof.
  intros Hq. induction tss as [|ts tss IH]; [done|].
  simpl. by rewrite animationFrame_idle.
Qed.

Lemma animationFrame_single ts w c :
  rafQueue w = [c] →
  animationFrame ts w = runFrame ts (setRafQueue [] w) c.
Proof. intros Hq. unfold animationFrame. by rewrite Hq. Qed.

Lemma onReplayClick_inv w w' :
  onReplayClick w = Some w' →
  w' = w ∧ replayIgnored (st w) = true
  ∨ replayIgnored (st w) = false
    ∧ ∃ lvl, LEVELS !! levelIndex (st w) = Some lvl
        ∧ w' = playSequenceWithRaf (sequence (st w)) (stepMs lvl) ReplayDone
                 (setDom (withStatusText "Replaying...")
                    (setState (withIsAnimatingSequence true)
                       (setState (withAcceptingInput false) w))).
Proof.
  unfold onReplayClick. destruct (replayIgnored (st w)).
  - intros ?. simplify_eq. by left.
  - simpl. destruct (LEVELS !! levelIndex (st w)) as [lvl|]; [|done].
    simpl. intros ?. simplify_eq. right. eauto.
Qed.

(** Registrations are only ever added by the handlers that start a run
    or bring up a menu: the script cancels nothing. *)
Lemma registrations_kept e w w' :
  startsRunOrEntersMenu e = true → dispatch e w = Some w' →
  rafQueue w `prefix_of` rafQueue w' ∧ timeouts w' = timeouts w.
Proof.
  intros Hs He. destruct e; try done; simpl in He; simplify_eq; try done.
  apply startRunFromLevel_inv in He as (lvl & _ & Hb).
  apply beginRound_flags in Hb as (_&_&_&_&_&_&_&_& Ht & lvl' & _ & Hq).
  simpl in *. rewrite rafQueue_pushColors in Hq.
  rewrite timeouts_pushColors in Ht. simpl in *.
  split; [|done]. rewrite Hq. by apply prefix_app_r.
Qed.

Lemma onPadPress_oneThingAtATime color w :
  oneThingAtATime w → oneThingAtATime (onPadPress color w).
Proof.
  intros [Hle Hpend]. unfold onPadPress.
  destruct (padIgnored (st w)) eqn:Hg; [done|].
  apply padIgnored_false in Hg as (Hacc & Hanim & Hscr).
  assert (pendingCount w = 0%nat) as H0.
  { destruct (decide (pendingCount w = 0%nat)); [done|].
    destruct Hpend; [done|congruence]. }
  unfold oneThingAtATime, pendingCount in *.
  simpl. case_bool_decide; [simpl; split; [lia|done]|].
  case_match; [|simpl; split; [lia|done]].
  unfold advanceLevelOrWin. simpl. case_match; simpl; split; (lia || done).
Qed.

Lemma dispatch_oneThingAtATime e w w' :
  oneThingAtATime w → available e (screen (st w)) = true →
  dispatch e w = Some w' → oneThingAtATime w'.
Proof.
  intros Hinv Hav He. pose proof Hinv as [Hle Hpend].
  assert (Hidle : screen (st w) ≠ game → pendingCount w = 0%nat).
  { intros Hs. destruct (decide (pendingCount w = 0%nat)); [done|].
    by destruct Hpend. }
  unfold oneThingAtATime, pendingCount in *.
  destruct e; simpl in Hav, He; try apply bool_decide_eq_true in Hav;
    simplify_eq.
  1-6: specialize (Hidle ltac:(by rewrite Hav)); simpl;
       split; [lia|intros; lia].
  - (* ClickLevel *)
    apply startRunFromLevel_inv in He as (lvl & _ & Hb).
    apply beginRound_flags in Hb
      as (Ha &_&_& Hs &_&_&_&_& Ht & lvl' & _ & Hq).
    simpl in *. rewrite rafQueue_pushColors in Hq.
    rewrite timeouts_pushColors in Ht. simpl in *.
    rewrite Hq, Ht, length_app, Hs. simpl.
    specialize (Hidle ltac:(by rewrite Hav)). split; [lia|done].
  - (* ClickReplay *)
    apply onReplayClick_inv in He as [[-> _]|(Hg & lvl & _ & ->)]; [done|].
    apply replayIgnored_false in Hg as (Hacc & _ & Hscr).
    assert (length (rafQueue w) + timeouts w = 0)%nat as H0.
    { destruct (decide (length (rafQueue w) + timeouts w = 0)%nat); [done|].
      destruct Hpend; [done|congruence]. }
    simpl. rewrite length_app. simpl. split; [lia|done].
  - (* ClickPad *)
    by apply onPadPress_oneThingAtATime.
  - (* ClickMusic *) done.
  - (* Timeout *)
    unfold timeoutFires in He. destruct (timeouts w) as [|n] eqn:Hn.
    + simplify_eq. rewrite Hn. done.
    + apply beginRound_flags in He
        as (Ha &_&_& Hs &_&_&_&_& Ht & lvl' & _ & Hq).
      simpl in *. rewrite Hq, Ht, length_app, Hs. simpl.
      destruct Hpend as [_ Hgame]; [lia|]. split; [lia|done].
  - (* AnimationFrame *)
    destruct (rafQueue w) as [|c [|c2 q]] eqn:Hq; simpl in Hle; [| |lia].
    + rewrite animationFrame_idle by done. by rewrite Hq.
    + rewrite (animationFrame_single ts w c Hq). unfold runFrame. simpl.
      destruct Hpend as [Hacc Hscr]; [simpl; lia|].
      destruct (frame _ c ts) as [c' [x| |]]; simpl.
      * split; [lia|done].
      * split; [lia|done].
      * destruct (c_onDone c); simpl; split; (lia || done).
Qed.

Lemma uiReachable_oneThingAtATime rnd w :
  uiReachable rnd w → oneThingAtATime w.
Proof.
  induction 1 as [|w e w' _ IH Hav He].
  - unfold oneThingAtATime, pendingCount. simpl. split; [lia|done].
  - by eapply dispatch_oneThingAtATime.
Qed.

(** C3 (amended).  The script cancels nothing: starting a run or
    entering a menu leaves every registered frame callback and every
    pending 650 ms timer in place.  What keeps a superseded round from
    reaching a new one is the page: with each button usable on its own
    screen only, nothing is pending (no playback, no inter-round timer)
    at the moment a run is started or a menu is entered. *)
Theorem nothing_pending_when_a_run_starts :
  (∀ e w w',
     startsRunOrEntersMenu e = true → dispatch e w = Some w' →
     rafQueue w `prefix_of` rafQueue w' ∧ timeouts w' = timeouts w)
  ∧ (∀ rnd w e,
       uiReachable rnd w →
       available e (screen (st w)) = true →
       startsRunOrEntersMenu e = true →
       quiet w).
Proof.
  split; [apply registrations_kept|].
  intros rnd w e Hr Hav Hs.
  destruct (uiReachable_oneThingAtATime rnd w Hr) as [_ Hpend].
  assert (screen (st w) ≠ game) as Hscr.
  { destruct e; try done; simpl in Hav; apply bool_decide_eq_true in Hav;
      by rewrite Hav. }
  unfold pendingCount in Hpend.
  destruct (rafQueue w) as [|c q] eqn:Hq, (timeouts w) as [|n] eqn:Ht;
    try (destruct Hpend; [simpl; lia|done]).
  split; done.
Qed.


Lemma startRunFromLevel_is_Some index lvl w :
  LEVELS !! index = Some lvl → is_Some (startRunFromLevel index w).
Proof.
  intros Hlvl. unfold startRunFromLevel. simpl. rewrite Hlvl. simpl.
  erewrite beginRound_Some; [done|]. simpl. by rewrite st_pushColors.
Qed.

(** C3 as claimed does not hold of the handlers: a run started by
    [startRunFromLevel] while the playback of the previous run is still
    registered leaves that playback registered; in [overlappingRuns] its
    completion then sets [acceptingInput] while the playback of the new
    run is still going. *)
Lemma pending_playback_survives_new_run :
  ¬ cancelsPending
  ∧ ∃ w, run overlappingRuns (initialWorld (λ n, n)) = Some w
      ∧ acceptingInput (st w) = true
      ∧ rafQueue w =
        [{| c_sequence := 2; c_onDone := RoundDone; idx := 2;
            lastStamp := 3100; minInterval := 700 |}].
Proof.
  split.
  - intros Hclaim.
    pose (w1 := showScreen levels (initialWorld (λ n, n))).
    assert (reachable (λ n, n) w1) as Hr1.
    { eapply (reachable_step _ _ ClickStart); [constructor|done]. }
    destruct (startRunFromLevel_is_Some 0 _ w1 eq_refl) as [w2 Hw2].
    assert (reachable (λ n, n) w2) as Hr2.
    { by eapply (reachable_step _ _ (ClickLevel 0)). }
    destruct (startRunFromLevel_is_Some 0 _ w2 eq_refl) as [w3 Hw3].
    destruct (Hclaim _ w2 (ClickLevel 0) w3 Hr2 eq_refl Hw3) as [Hgone _].
    destruct (registrations_kept (ClickLevel 0) w2 w3 eq_refl Hw3)
      as [[q3 Hq3] _].
    apply startRunFromLevel_inv in Hw2 as (lvl & _ & Hb).
    apply beginRound_flags in Hb as (_&_&_&_&_&_&_&_&_& lvl' & _ & Hq2).
    match type of Hq2 with _ = _ ++ [?c] => apply (Hgone c) end.
    + rewrite Hq2. apply elem_of_app. right.
      by apply list_elem_of_singleton.
    + rewrite Hq3, Hq2. apply elem_of_app. left.
      apply elem_of_app. right. by apply list_elem_of_singleton.
  - eexists. split; [by vm_compute|]. by vm_compute.
Qed.

(** ** Replay *)

Lemma frame_keeps_closure arr c ts :
  c_sequence (frame arr c ts).1 = c_sequence c
  ∧ c_onDone (frame arr c ts).1 = c_onDone c.
Proof. unfold frame. by repeat case_match. Qed.

(** The log of a playback does not depend on which array reference and
    which callback the closure holds. *)
Lemma playFrames_same_pace arr tss :
  ∀ c c', idx c = idx c' → lastStamp c = lastStamp c' →
          minInterval c = minInterval c' →
          playFrames arr c tss = playFrames arr c' tss.
Proof.
  induction tss as [|ts tss IH]; intros c c' Hi Hl Hm; [done|].
  simpl. unfold frame. rewrite Hi, Hl, Hm.
  destruct (lastStamp c' =? 0).
  { simpl. f_equal. apply IH; simpl; congruence. }
  destruct (minInterval c' <=? ts - lastStamp c').
  - destruct (length arr <=? idx c')%nat; [done|]. simpl. f_equal.
    apply IH; simpl; congruence.
  - simpl. f_equal. by apply IH.
Qed.

Lemma st_runDone cb w1 w2 :
  st w1 = st w2 → st (runDone cb w1) = st (runDone cb w2).
Proof. intros H. destruct cb; simpl; by rewrite H. Qed.

(** A world with one playback registered, driven by frames, follows the
    log of the engine: while the log has no [Done] the state is
    untouched and one closure stays registered; from [Done] on the
    queue is empty and the state is the one the callback left. *)
Lemma runFrames_single tss :
  ∀ w c, rafQueue w = [c] →
    let log := playFrames (deref w (c_sequence c)) c tss in
    let w' := runFrames tss w in
    match completions log with
    | [] => st w' = st w ∧ ∃ c', rafQueue w' = [c']
    | _ => st w' = st (runDone (c_onDone c) w) ∧ rafQueue w' = []
    end.
Proof.
  induction tss as [|ts tss IH]; intros w c Hq; simpl; [eauto|].
  rewrite (animationFrame_single ts w c Hq). unfold runFrame.
  change (deref (setRafQueue [] w) (c_sequence c))
    with (deref w (c_sequence c)).
  destruct (frame_keeps_closure (deref w (c_sequence c)) c ts) as [Hs Hd].
  destruct (frame (deref w (c_sequence c)) c ts) as [c' [x| |]] eqn:Hf;
    simpl in Hs, Hd.
  - set (w1 := setRafQueue _ _).
    specialize (IH w1 c' eq_refl). simpl in IH.
    change (deref w1 (c_sequence c')) with (deref w (c_sequence c')) in IH.
    rewrite Hs, Hd in IH. simpl.
    change (completions ((ts, Emit x) :: ?l)) with (completions l).
    destruct (completions _); [done|].
    destruct IH as [-> ->]. split; [|done]. by apply st_runDone.
  - set (w1 := setRafQueue _ _).
    specialize (IH w1 c' eq_refl). simpl in IH.
    change (deref w1 (c_sequence c')) with (deref w (c_sequence c')) in IH.
    rewrite Hs, Hd in IH. simpl.
    change (completions ((ts, Wait) :: ?l)) with (completions l).
    destruct (completions _); [done|].
    destruct IH as [-> ->]. split; [|done]. by apply st_runDone.
  - simpl. rewrite runFrames_idle by (by destruct (c_onDone c)).
    split; [by apply st_runDone|]. by destruct (c_onDone c).
Qed.

(** C8.  The replay button does nothing unless the game screen is up,
    input is accepted and nothing is animating.  Otherwise it plays the
    current sequence again: whatever frames follow, score, level index
    and the sequence with its contents stay as they were, the state
    stays as the click left it while the playback is registered, and
    once it has completed the state is the one before the click with
    [inputIndex] set to 0; on a clock of positive increasing timestamps
    it does complete. *)
Theorem replay_only_resets_cursor :
  (∀ w, replayIgnored (st w) = true → onReplayClick w = Some w)
  ∧ (∀ w lvl,
       replayIgnored (st w) = false →
       rafQueue w = [] →
       LEVELS !! levelIndex (st w) = Some lvl →
       ∃ w1, onReplayClick w = Some w1
         ∧ (∀ tss,
              let w2 := runFrames tss w1 in
              score (st w2) = score (st w)
              ∧ levelIndex (st w2) = levelIndex (st w)
              ∧ sequence (st w2) = sequence (st w)
              ∧ currentSequence w2 = currentSequence w
              ∧ (rafQueue w2 ≠ [] → st w2 = st w1)
              ∧ (rafQueue w2 = [] → st w2 = withInputIndex 0 (st w)))
         ∧ (∀ clock,
              currentSequence w ≠ [] → 0 < clock 0%nat → increasing clock →
              ∃ n, rafQueue (runFrames (ticks clock n) w1) = [])).
Proof.
  split.
  - intros w Hg. unfold onReplayClick. by rewrite Hg.
  - intros w lvl Hg Hq Hlvl.
    unfold onReplayClick. rewrite Hg. simpl. rewrite Hlvl. simpl.
    eexists. split; [done|].
    set (c := newClosure (sequence (st w)) (stepMs lvl) ReplayDone).
    set (w1 := playSequenceWithRaf _ _ _ _).
    assert (Hq1 : rafQueue w1 = [c]) by (unfold w1; simpl; by rewrite Hq).
    apply replayIgnored_false in Hg as (Hacc & Hanim & Hscr).
    split.
    + intros tss. cbv zeta. set (w2 := runFrames tss w1).
      destruct (runFrames_keeps tss w1) as (Hsc & Hli & Hsq & _ & _ & Harr & _).
      fold w2 in Hsc, Hli, Hsq, Harr.
      split; [done|]. split; [done|]. split; [done|].
      split; [unfold currentSequence, deref; by rewrite Harr, Hsq|].
      pose proof (runFrames_single tss w1 c Hq1) as Hrun. simpl in Hrun.
      fold w2 in Hrun.
      destruct (completions _).
      * destruct Hrun as [Hst [c' Hc']]. split; [done|].
        intros H0. by rewrite H0 in Hc'.
      * destruct Hrun as [Hst Hempty]. split; [done|]. intros _.
        rewrite Hst. simpl. destruct (st w). simpl in *. by subst.
    + intros clock Hne Hpos Hinc.
      destruct (playback_positive_clock (currentSequence w) (stepMs lvl)
                  clock Hne Hpos Hinc)
        as (n & _ & _ & _ & _ & _ & (td & tl & Hdone & _) & _).
      exists n.
      pose proof (runFrames_single (ticks clock n) w1 c Hq1) as Hrun.
      cbv zeta in Hrun.
      change (deref w1 (c_sequence c)) with (currentSequence w) in Hrun.
      rewrite (playFrames_same_pace _ _ c (newClosure 0 (stepMs lvl) RoundDone))
        in Hrun by done.
      unfold playSequenceWithRaf_log in Hdone. rewrite Hdone in Hrun.
      by destruct Hrun.
Qed.

(** ** Score *)

Lemma onPadPress_score color w :
  score (st (onPadPress color w)) =
  if completesRound color w then score (st w) + 100 else score (st w).
Proof.
  unfold completesRound. destruct (padIgnored (st w)) eqn:Hg.
  { by rewrite onPadPress_ignored. }
  simpl. case_bool_decide as Heq; simpl.
  - destruct (Nat.leb_spec (length (currentSequence w))
                (inputIndex (st w) + 1)).
    + rewrite onPadPress_last by (done || lia).
      by destruct (advanceLevelOrWin_flags
        (setState (withAcceptingInput false)
           (setState (withInputIndex (inputIndex (st w) + 1))
              (playColorSound (Some color) (glowPad (Some color) w)))))
        as (_ & _ & -> & _).
    + by rewrite onPadPress_match by (done || lia).
  - by rewrite onPadPress_mismatch.
Qed.

Lemma dispatch_score e w w' :
  dispatch e w = Some w' →
  score (st w') =
  match e with
  | ClickLevel _ => 0
  | ClickPad c => if completesRound c w then score (st w) + 100
                  else score (st w)
  | _ => score (st w)
  end.
Proof.
  intros He. destruct e; simpl in He; simplify_eq; try done.
  - by eapply startRunFromLevel_score.
  - by apply onReplayClick_inv in He as [[-> _]|(_ & lvl & _ & ->)].
  - apply onPadPress_score.
  - unfold timeoutFires in He. destruct (timeouts w); [by simplify_eq|].
    by apply beginRound_flags in He as (_&_&_&_& -> &_).
  - by destruct (animationFrame_keeps ts w) as (-> & _).
Qed.

Lemma run_score evs :
  ∀ w n w', run evs w = Some w' → score (st w) = 100 * Z.of_nat n →
            score (st w') = 100 * Z.of_nat (roundsCompleted evs w n).
Proof.
  induction evs as [|e evs IH]; intros w n w' Hrun Hn; simpl in *.
  { by simplify_eq. }
  destruct (dispatch e w) as [w1|] eqn:He; [|done]. simpl in Hrun.
  apply (IH _ _ _ Hrun). rewrite (dispatch_score e w w1 He).
  destruct e; try done. destruct (completesRound color w); lia.
Qed.

Lemma onPadPress_victoryRecorded color w :
  victoryRecorded w → victoryRecorded (onPadPress color w).
Proof.
  intros Hv. unfold onPadPress.
  destruct (padIgnored (st w)) eqn:Hg; [done|].
  apply padIgnored_false in Hg as (_ & _ & Hscr).
  unfold victoryRecorded in *. simpl. case_bool_decide; [done|].
  case_match; [|simpl; congruence].
  unfold advanceLevelOrWin. simpl. case_match; simpl; [done|congruence].
Qed.

Lemma dispatch_victoryRecorded e w w' :
  victoryRecorded w → dispatch e w = Some w' → victoryRecorded w'.
Proof.
  intros Hv He. destruct e; simpl in He; simplify_eq; try done.
  - apply startRunFromLevel_inv in He as (lvl & _ & Hb).
    apply beginRound_flags in Hb as (_&_&_& Hs &_).
    intros Hvic. rewrite Hs in Hvic. done.
  - apply onReplayClick_inv in He as [[-> _]|(Hg & lvl & _ & ->)]; [done|].
    apply replayIgnored_false in Hg as (_ & _ & Hscr).
    intros Hvic. simpl in Hvic. congruence.
  - by apply onPadPress_victoryRecorded.
  - unfold timeoutFires in He. destruct (timeouts w); [by simplify_eq|].
    apply beginRound_inv in He as (lvl & _ & ->). exact Hv.
  - destruct (animationFrame_keeps ts w)
      as (Hsc &_&_& Hscr &_&_&_&_&_&_&_& Hvs).
    unfold victoryRecorded. by rewrite Hsc, Hscr, Hvs.
Qed.

Lemma run_victoryRecorded evs :
  ∀ w w', run evs w = Some w' → victoryRecorded w → victoryRecorded w'.
Proof.
  induction evs as [|e evs IH]; intros w w' Hrun Hv; simpl in *.
  { by simplify_eq. }
  destruct (dispatch e w) as [w1|] eqn:He; [|done]. simpl in Hrun.
  apply (IH _ _ Hrun). by eapply dispatch_victoryRecorded.
Qed.

(** C10.  After any trace of events from [init()], the score is 100
    times the number of rounds completed since the last run start, so a
    non-negative multiple of 100, and on the Victory screen the recorded
    score is that score; the press that completes the last level shows
    Victory with the score recorded after the 100 of that round is
    added; a run won from level 1 records 500. *)
Theorem score_counts_completed_rounds :
  (∀ rnd evs w,
     run evs (initialWorld rnd) = Some w →
     score (st w) =
       100 * Z.of_nat (roundsCompleted evs (initialWorld rnd) 0)
     ∧ 0 ≤ score (st w)
     ∧ (100 | score (st w))
     ∧ (screen (st w) = victory →
        victoryScoreEl (dom w) = Some (score (st w))))
  ∧ (∀ w color,
       completesRound color w = true →
       levelIndex (st w) = (length LEVELS - 1)%nat →
       let w' := onPadPress color w in
       screen (st w') = victory
       ∧ score (st w') = score (st w) + 100
       ∧ victoryScoreEl (dom w') = Some (score (st w) + 100))
  ∧ (∃ w, run winningRun (initialWorld (λ n, n)) = Some w
       ∧ roundsCompleted winningRun (initialWorld (λ n, n)) 0 = 5%nat
       ∧ screen (st w) = victory
       ∧ victoryScoreEl (dom w) = Some 500).
Proof.
  split; [|split].
  - intros rnd evs w Hrun.
    pose proof (run_score evs (initialWorld rnd) 0 w Hrun eq_refl) as Hs.
    split; [done|]. split; [lia|]. split.
    + rewrite Hs. by apply Z.divide_factor_l.
    + by apply (run_victoryRecorded evs (initialWorld rnd) w Hrun).
  - intros w color Hc Hl w'. subst w'. unfold completesRound in Hc.
    apply andb_true_iff in Hc as [Hc Hlen].
    apply andb_true_iff in Hc as [Hg Heq].
    apply negb_true_iff in Hg. apply bool_decide_eq_true in Heq.
    apply Nat.leb_le in Hlen.
    rewrite onPadPress_last by (done || lia).
    by rewrite advanceLevelOrWin_last.
  - eexists. split; [by vm_compute|]. by vm_compute.
Qed.

(** * The theorems at concrete worlds *)

Lemma flags_never_both_true_witness :
  reachable (λ n, n) atLevelSelect
  ∧ ¬ (acceptingInput (st atLevelSelect) = true
       ∧ isAnimatingSequence (st atLevelSelect) = true).
Proof.
  assert (reachable (λ n, n) atLevelSelect) as Hr.
  { apply (reachable_step _ (initialWorld (λ n, n)) ClickStart);
      [apply reachable_init|reflexivity]. }
  split; [exact Hr|].
  exact (proj2 flags_never_both_true (λ n, n) atLevelSelect Hr).
Defined.

Lemma nothing_pending_when_a_run_starts_witness :
  uiReachable (λ n, n) atLevelSelect
  ∧ available (ClickLevel 0) (screen (st atLevelSelect)) = true
  ∧ startsRunOrEntersMenu (ClickLevel 0) = true
  ∧ quiet atLevelSelect.
Proof.
  assert (uiReachable (λ n, n) atLevelSelect) as Hr.
  { apply (uiReachable_step _ (initialWorld (λ n, n)) ClickStart);
      [apply uiReachable_init|reflexivity|reflexivity]. }
  split; [exact Hr|]. split; [reflexivity|]. split; [reflexivity|].
  exact (proj2 nothing_pending_when_a_run_starts (λ n, n) atLevelSelect
           (ClickLevel 0) Hr eq_refl eq_refl).
Defined.

Lemma correct_sequence_advances_or_wins_witness :
  padIgnored (st yourTurn) = false
  ∧ (inputIndex (st yourTurn) < length (currentSequence yourTurn))%nat
  ∧ score (st (pressAll (drop (inputIndex (st yourTurn))
                           (currentSequence yourTurn)) yourTurn))
    = score (st yourTurn) + 100.
Proof.
  assert (padIgnored (st yourTurn) = false) as Hg by (vm_compute; reflexivity).
  assert (inputIndex (st yourTurn) < length (currentSequence yourTurn))%nat
    as Hlt by (vm_compute; lia).
  split; [exact Hg|]. split; [exact Hlt|].
  exact (proj1 (correct_sequence_advances_or_wins yourTurn Hg Hlt)).
Defined.

Lemma mismatch_ends_the_run_witness :
  padIgnored (st yourTurn) = false
  ∧ (1 = 0 ∨ inputIndex (st yourTurn) + 1 < length (currentSequence yourTurn))%nat
  ∧ currentSequence yourTurn !! (inputIndex (st yourTurn) + 1)%nat ≠ Some green
  ∧ screen (st (pressAll
                  (take 1 (drop (inputIndex (st yourTurn))
                             (currentSequence yourTurn)) ++ [green])
                  yourTurn)) = gameover.
Proof.
  assert (padIgnored (st yourTurn) = false) as Hg by (vm_compute; reflexivity).
  assert (1 = 0 ∨ inputIndex (st yourTurn) + 1
                  < length (currentSequence yourTurn))%nat
    as Hk by (right; vm_compute; lia).
  assert (currentSequence yourTurn !! (inputIndex (st yourTurn) + 1)%nat
          ≠ Some green) as Hne by (vm_compute; discriminate).
  split; [exact Hg|]. split; [exact Hk|]. split; [exact Hne|].
  exact (proj1 (proj2 (proj2 (proj2
           (proj1 mismatch_ends_the_run yourTurn green 1%nat Hg Hk Hne))))).
Defined.

Lemma pad_press_outside_input_mode_ignored_witness :
  ¬ (screen (st atLevelSelect) = game
     ∧ acceptingInput (st atLevelSelect) = true
     ∧ isAnimatingSequence (st atLevelSelect) = false)
  ∧ dispatch (ClickPad red) atLevelSelect = Some atLevelSelect.
Proof.
  assert (¬ (screen (st atLevelSelect) = game
             ∧ acceptingInput (st atLevelSelect) = true
             ∧ isAnimatingSequence (st atLevelSelect) = false)) as Hn.
  { intros [Hs _]. vm_compute in Hs. discriminate Hs. }
  split; [exact Hn|].
  exact (pad_press_outside_input_mode_ignored red atLevelSelect Hn).
Defined.

Lemma advance_appends_one_signal_witness :
  levelIndex (st yourTurn) ≠ (length LEVELS - 1)%nat
  ∧ currentSequence (advanceLevelOrWin yourTurn)
    = currentSequence yourTurn ++ [drawn yourTurn 0].
Proof.
  assert (levelIndex (st yourTurn) ≠ (length LEVELS - 1)%nat) as Hl
    by (vm_compute; lia).
  split; [exact Hl|].
  exact (proj1 (proj2 (advance_appends_one_signal yourTurn Hl))).
Defined.

Lemma replay_only_resets_cursor_witness :
  replayIgnored (st yourTurn) = false
  ∧ rafQueue yourTurn = []
  ∧ LEVELS !! levelIndex (st yourTurn)
    = Some {| id := 1; sequenceLength := 3; stepMs := 700 |}
  ∧ ∃ w1, onReplayClick yourTurn = Some w1
      ∧ ∀ tss, rafQueue (runFrames tss w1) = [] →
               st (runFrames tss w1) = withInputIndex 0 (st yourTurn).
Proof.
  assert (replayIgnored (st yourTurn) = false) as Hg
    by (vm_compute; reflexivity).
  assert (rafQueue yourTurn = []) as Hq by (vm_compute; reflexivity).
  assert (LEVELS !! levelIndex (st yourTurn)
          = Some {| id := 1; sequenceLength := 3; stepMs := 700 |}) as Hl
    by (vm_compute; reflexivity).
  split; [exact Hg|]. split; [exact Hq|]. split; [exact Hl|].
  destruct (proj2 replay_only_resets_cursor yourTurn _ Hg Hq Hl)
    as (w1 & Hw1 & Hframes & _).
  exists w1. split; [exact Hw1|].
  intros tss. exact (proj2 (proj2 (proj2 (proj2 (proj2 (Hframes tss)))))).
Defined.

Lemma start_run_generates_level_sequence_witness :
  LEVELS !! 2%nat = Some {| id := 3; sequenceLength := 5; stepMs := 540 |}
  ∧ ∃ w', startRunFromLevel 2 atLevelSelect = Some w'
      ∧ score (st w') = 0
      ∧ levelIndex (st w') = 2%nat
      ∧ length (currentSequence w') = 5%nat.
Proof.
  assert (LEVELS !! 2%nat
          = Some {| id := 3; sequenceLength := 5; stepMs := 540 |}) as Hl
    by reflexivity.
  split; [exact Hl|].
  destruct (start_run_generates_level_sequence atLevelSelect 2 _ Hl)
    as (w' & Hw' & Hs & Hi & _ & _ & Hlen & _).
  exists w'. split; [exact Hw'|]. split; [exact Hs|]. split; [exact Hi|].
  exact Hlen.
Defined.

Lemma score_counts_completed_rounds_witness :
  run lostRun (initialWorld (λ n, n)) = Some (pressAll [red; green] yourTurn)
  ∧ score (st (pressAll [red; green] yourTurn))
    = 100 * Z.of_nat (roundsCompleted lostRun (initialWorld (λ n, n)) 0).
Proof.
  assert (run lostRun (initialWorld (λ n, n))
          = Some (pressAll [red; green] yourTurn)) as Hrun
    by (vm_compute; reflexivity).
  split; [exact Hrun|].
  exact (proj1 (proj1 score_counts_completed_rounds (λ n, n) lostRun _ Hrun)).
Defined.

(** * Further properties of the handlers *)

Lemma onPadPress_cases color w :
  (padIgnored (st w) = true ∧ onPadPress color w = w)
  ∨ (padIgnored (st w) = false
     ∧ currentSequence w !! inputIndex (st w) ≠ Some color
     ∧ onPadPress color w =
       showScreen gameover
         (setDom (withFinalScoreEl (score (st w)))
            (playWrongSound
               (setState (withAcceptingInput false)
                  (playColorSound (Some color) (glowPad (Some color) w))))))
  ∨ (padIgnored (st w) = false
     ∧ currentSequence w !! inputIndex (st w) = Some color
     ∧ (S (inputIndex (st w)) < length (currentSequence w))%nat
     ∧ onPadPress color w =
       setState (withInputIndex (inputIndex (st w) + 1))
         (playColorSound (Some color) (glowPad (Some color) w)))
  ∨ (padIgnored (st w) = false
     ∧ currentSequence w !! inputIndex (st w) = Some color
     ∧ (length (currentSequence w) ≤ S (inputIndex (st w)))%nat
     ∧ onPadPress color w =
       advanceLevelOrWin
         (setState (withAcceptingInput false)
            (setState (withInputIndex (inputIndex (st w) + 1))
               (playColorSound (Some color) (glowPad (Some color) w))))).
Proof.
  destruct (padIgnored (st w)) eqn:Hg.
  { left. split; [done|]. by apply onPadPress_ignored. }
  right.
  destruct (decide (currentSequence w !! inputIndex (st w) = Some color))
    as [Heq|Hne].
  - right.
    destruct (decide (S (inputIndex (st w)) < length (currentSequence w))%nat).
    + left. repeat split; try done. by apply onPadPress_match.
    + right. repeat split; try done; [lia|]. apply onPadPress_last; (done || lia).
  - left. repeat split; try done. by apply onPadPress_mismatch.
Qed.

(** The catalog: level [k] (from 0) has id [k + 1] and a sequence of
    [k + 3] signals. *)
Lemma LEVELS_entry k lvl :
  LEVELS !! k = Some lvl →
  id lvl = S k ∧ sequenceLength lvl = (k + 3)%nat ∧ (k < length LEVELS)%nat.
Proof.
  intros H.
  do 5 (destruct k as [|k];
          [simpl in H; simplify_eq; simpl; repeat split; lia|]).
  done.
Qed.

(** ** The level index stays inside the catalog *)





(** ** Cursor, sequence length, recorded score, HUD *)

Lemma frameTouch_refl w : frameTouch w w.
Proof. unfold frameTouch. auto. Qed.

Lemma frameTouch_trans w1 w2 w3 :
  frameTouch w1 w2 → frameTouch w2 w3 → frameTouch w1 w3.
Proof.
  unfold frameTouch. intros ([H1|H1] & ? & ?) ([H2|H2] & ? & ?);
    repeat split; try congruence; (left; congruence) || (right; congruence).
Qed.

Lemma runFrame_touch ts w c : frameTouch w (runFrame ts w c).
Proof.
  unfold runFrame, frameTouch.
  destruct (frame _ c ts) as [c' [x| |]]; simpl; auto.
  destruct (c_onDone c); simpl; auto.
Qed.

Lemma animationFrame_touch ts w : frameTouch w (animationFrame ts w).
Proof.
  unfold animationFrame.
  assert (∀ q v, frameTouch v (foldl (runFrame ts) v q)) as Hfold.
  { induction q as [|c q IH]; intros v; [apply frameTouch_refl|].
    simpl. eapply frameTouch_trans; [apply runFrame_touch|apply IH]. }
  eapply frameTouch_trans; [|apply Hfold]. unfold frameTouch. simpl. auto.
Qed.

Lemma currentSequence_keeps w w' :
  keepsProgress w w' → currentSequence w' = currentSequence w.
Proof.
  intros (_&_& Hsq &_&_& Harr &_). unfold currentSequence, deref.
  by rewrite Harr, Hsq.
Qed.

Lemma currentSequence_startRun index w w' lvl :
  LEVELS !! index = Some lvl → startRunFromLevel index w = Some w' →
  length (currentSequence w') = sequenceLength lvl
  ∧ levelIndex (st w') = index ∧ inputIndex (st w') = 0%nat.
Proof.
  intros Hlvl (lvl' & Hlvl' & Hb)%startRunFromLevel_inv. simplify_eq.
  apply beginRound_flags in Hb as (_&_& Hi &_&_& Hl & Hsq & Harr &_).
  split; [|split; [|done]].
  - unfold currentSequence, deref. rewrite Harr, Hsq.
    change (length (currentSequence
      (pushColors (sequenceLength lvl)
         (setState (withSequence (nextRef w))
            (newArray (setState (withScore 0)
               (setState (withLevelIndex index) w)))))) = sequenceLength lvl).
    rewrite currentSequence_pushColors, length_app, length_fmap, length_seq.
    unfold currentSequence, deref. simpl. by rewrite fn_lookup_insert.
  - rewrite Hl. simpl. by rewrite st_pushColors.
Qed.

Lemma dispatch_cursorInRange e w w' :
  cursorInRange w → dispatch e w = Some w' → cursorInRange w'.
Proof.
  unfold cursorInRange. intros Hin He.
  destruct e; simpl in He; simplify_eq; try done.
  - pose proof He as (lvl & Hlvl & _)%startRunFromLevel_inv.
    destruct (currentSequence_startRun _ _ _ _ Hlvl He) as (_ & _ & ->). lia.
  - by apply onReplayClick_inv in He as [[-> _]|(_ & lvl & _ & ->)].
  - destruct (onPadPress_cases color w)
      as [[_ ->]|[(_&_& ->)|[(_&_& Hlt & ->)|(_& Heq & _ & ->)]]]; try done.
    + change (inputIndex (st w) + 1 ≤ length (currentSequence w))%nat. lia.
    + apply lookup_lt_Some in Heq.
      unfold advanceLevelOrWin. cbn -[LEVELS].
      destruct (levelIndex (st w) =? length LEVELS - 1)%nat.
      * change (inputIndex (st w) + 1 ≤ length (currentSequence w))%nat. lia.
      * unfold currentSequence, deref in *. simpl.
        rewrite fn_lookup_insert, length_app. simpl. lia.
  - unfold timeoutFires in He. destruct (timeouts w); [by simplify_eq|].
    apply beginRound_flags in He as (_&_& -> &_). lia.
  - rewrite (currentSequence_keeps _ _ (animationFrame_keeps ts w)).
    destruct (animationFrame_touch ts w) as ([-> | ->] & _); lia.
Qed.

(** X2.  In every state reachable from [init()], in whatever order the
    handlers run, the input cursor is at most the length of the current
    sequence. *)
Theorem cursor_stays_in_range rnd w :
  reachable rnd w → (inputIndex (st w) ≤ length (currentSequence w))%nat.
Proof.
  induction 1 as [|w e w' _ IH He]; [simpl; lia|].
  by eapply dispatch_cursorInRange.
Qed.

Lemma cursor_stays_in_range_witness :
  reachable (λ n, n) atLevelSelect
  ∧ (inputIndex (st atLevelSelect)
     ≤ length (currentSequence atLevelSelect))%nat.
Proof.
  assert (reachable (λ n, n) atLevelSelect) as Hr.
  { apply (reachable_step _ (initialWorld (λ n, n)) ClickStart);
      [apply reachable_init|reflexivity]. }
  split; [exact Hr|]. exact (cursor_stays_in_range (λ n, n) atLevelSelect Hr).
Defined.

Lemma dispatch_lengthOfLevel e w w' :
  lengthOfLevel w → dispatch e w = Some w' → lengthOfLevel w'.
Proof.
  unfold lengthOfLevel. intros Hin He.
  destruct e; simpl in He; simplify_eq; try done.
  - pose proof He as (lvl & Hlvl & _)%startRunFromLevel_inv.
    destruct (currentSequence_startRun _ _ _ _ Hlvl He) as (-> & -> & _).
    right. by rewrite Hlvl.
  - by apply onReplayClick_inv in He as [[-> _]|(_ & lvl & _ & ->)].
  - destruct (onPadPress_cases color w)
      as [[_ ->]|[(_&_& ->)|[(_&_&_& ->)|(_& Heq & _ & ->)]]]; try done.
    destruct Hin as [Hnil|Hlen]; [by rewrite Hnil in Heq|].
    unfold advanceLevelOrWin. cbn -[LEVELS].
    destruct (Nat.eqb_spec (levelIndex (st w)) (length LEVELS - 1));
      [by right|].
    right. unfold currentSequence, deref in *. cbn -[LEVELS].
    rewrite fn_lookup_insert, length_app.
    destruct (LEVELS !! levelIndex (st w)) as [lvl|] eqn:Hlvl; [|done].
    apply LEVELS_entry in Hlvl as (_ & Hl & Hlt). simpl in Hlen.
    destruct (lookup_lt_is_Some_2 LEVELS (levelIndex (st w) + 1))
      as [lvl' Hlvl']; [lia|].
    rewrite Hlvl'. apply LEVELS_entry in Hlvl' as (_ & Hl' & _).
    simpl in *. f_equal. simplify_eq. lia.
  - unfold timeoutFires in He. destruct (timeouts w); [by simplify_eq|].
    apply beginRound_flags in He as (_&_&_&_&_& Hl & Hsq & Harr &_).
    unfold currentSequence, deref in *. by rewrite Hl, Hsq, Harr.
  - rewrite (currentSequence_keeps _ _ (animationFrame_keeps ts w)).
    by destruct (animationFrame_keeps ts w) as (_ & -> & _).
Qed.

Lemma reachable_lengthOfLevel rnd w : reachable rnd w → lengthOfLevel w.
Proof.
  induction 1 as [|w e w' _ IH He]; [by left|].
  by eapply dispatch_lengthOfLevel.
Qed.

(** X3.  In every state reachable from [init()] in which a run has been
    started (the sequence is not the empty array of the initial state),
    the sequence is exactly as long as the catalog entry of the current
    level says: the one signal pushed at each advance keeps step with
    the catalog. *)
Theorem sequence_length_follows_catalog rnd w :
  reachable rnd w → currentSequence w ≠ [] →
  sequenceLength <$> LEVELS !! levelIndex (st w)
  = Some (length (currentSequence w)).
Proof.
  intros Hr Hne. by destruct (reachable_lengthOfLevel rnd w Hr).
Qed.

Lemma run_reachable rnd evs :
  ∀ w w', reachable rnd w → run evs w = Some w' → reachable rnd w'.
Proof.
  induction evs as [|e evs IH]; intros w w' Hr Hrun; simpl in Hrun.
  { by simplify_eq. }
  destruct (dispatch e w) as [w1|] eqn:He; [|done].
  apply (IH w1 w'); [|done]. by eapply reachable_step.
Qed.

Lemma yourTurn_reachable : reachable (λ n, n) yourTurn.
Proof.
  apply (run_reachable _
           ([ClickStart; ClickLevel 0]
              ++ (AnimationFrame <$> [1000; 1700; 2400; 3100]))
           (initialWorld (λ n, n))); [apply reachable_init|].
  vm_compute. reflexivity.
Qed.

Lemma sequence_length_follows_catalog_witness :
  reachable (λ n, n) yourTurn
  ∧ currentSequence yourTurn ≠ []
  ∧ sequenceLength <$> LEVELS !! levelIndex (st yourTurn)
    = Some (length (currentSequence yourTurn)).
Proof.
  assert (currentSequence yourTurn ≠ []) as Hne
    by (vm_compute; discriminate).
  split; [exact yourTurn_reachable|]. split; [exact Hne|].
  exact (sequence_length_follows_catalog (λ n, n) yourTurn
           yourTurn_reachable Hne).
Defined.

Lemma dispatch_gameoverRecorded e w w' :
  gameoverRecorded w → dispatch e w = Some w' → gameoverRecorded w'.
Proof.
  unfold gameoverRecorded. intros Hv He.
  destruct e; simpl in He; simplify_eq; try done.
  - apply startRunFromLevel_inv in He as (lvl & _ & Hb).
    apply beginRound_flags in Hb as (_&_&_& Hs &_).
    intros Hgo. by rewrite Hs in Hgo.
  - apply onReplayClick_inv in He as [[-> _]|(Hg & lvl & _ & ->)]; [done|].
    apply replayIgnored_false in Hg as (_ & _ & Hscr).
    intros Hgo. simpl in Hgo. congruence.
  - destruct (onPadPress_cases color w)
      as [[_ ->]|[(_&_& ->)|[(Hg &_&_& ->)|(Hg &_&_& ->)]]]; try done.
    apply padIgnored_false in Hg as (_ & _ & Hscr).
    unfold advanceLevelOrWin. cbn -[LEVELS].
    destruct (levelIndex (st w) =? length LEVELS - 1)%nat; simpl;
      intros ?; congruence.
  - unfold timeoutFires in He. destruct (timeouts w); [by simplify_eq|].
    apply beginRound_inv in He as (lvl & _ & ->). exact Hv.
  - destruct (animationFrame_keeps ts w)
      as (Hsc &_&_& Hscr &_&_&_&_&_&_& Hfs & _).
    by rewrite Hsc, Hscr, Hfs.
Qed.

(** X4.  In every state reachable from [init()], in whatever order the
    handlers run, whenever the GameOver screen is up the final score
    written to the page is the current score: nothing changes the score
    between the mismatch and the next run. *)
Theorem gameover_shows_the_score rnd w :
  reachable rnd w → screen (st w) = gameover →
  finalScoreEl (dom w) = Some (score (st w)).
Proof.
  intros Hr. change (gameoverRecorded w).
  induction Hr as [|w e w' _ IH He]; [done|].
  by eapply dispatch_gameoverRecorded.
Qed.

Lemma gameover_shows_the_score_witness :
  reachable (λ n, n) (pressAll [red; green] yourTurn)
  ∧ screen (st (pressAll [red; green] yourTurn)) = gameover
  ∧ finalScoreEl (dom (pressAll [red; green] yourTurn))
    = Some (score (st (pressAll [red; green] yourTurn))).
Proof.
  assert (reachable (λ n, n) (pressAll [red; green] yourTurn)) as Hr.
  { apply (run_reachable _ [ClickPad red; ClickPad green] yourTurn);
      [exact yourTurn_reachable|vm_compute; reflexivity]. }
  assert (screen (st (pressAll [red; green] yourTurn)) = gameover) as Hs
    by (vm_compute; reflexivity).
  split; [exact Hr|]. split; [exact Hs|].
  exact (gameover_shows_the_score (λ n, n) _ Hr Hs).
Defined.

(** ** The HUD *)

Lemma dispatch_hud e w w' :
  (screen (st w) = game → timeouts w = 0%nat → hudInSync w) →
  dispatch e w = Some w' →
  screen (st w') = game → timeouts w' = 0%nat → hudInSync w'.
Proof.
  unfold hudInSync. intros Hv He.
  destruct e; simpl in He; simplify_eq; try done.
  - apply startRunFromLevel_inv in He as (lvl & _ & Hb).
    apply beginRound_inv in Hb as (lvl' & Hlvl' & ->). intros _ _.
    cbn -[LEVELS] in *. by rewrite Hlvl'.
  - by apply onReplayClick_inv in He as [[-> _]|(Hg & lvl & _ & ->)].
  - destruct (onPadPress_cases color w)
      as [[_ ->]|[(_&_& ->)|[(Hg &_&_& ->)|(Hg &_&_& ->)]]]; try done.
    unfold advanceLevelOrWin. cbn -[LEVELS].
    destruct (levelIndex (st w) =? length LEVELS - 1)%nat; simpl; done.
  - unfold timeoutFires in He. destruct (timeouts w) eqn:Ht.
    + simplify_eq. intros Hs _. by apply Hv.
    + apply beginRound_inv in He as (lvl' & Hlvl' & ->). intros _ _.
      cbn -[LEVELS] in *. by rewrite Hlvl'.
  - destruct (animationFrame_keeps ts w)
      as (Hsc & Hl &_& Hscr &_&_&_& Ht &_).
    destruct (animationFrame_touch ts w) as (_ & Hse & Hle).
    rewrite Hsc, Hl, Hscr, Ht, Hse, Hle. exact Hv.
Qed.

(** X5.  In every state reachable from [init()], in whatever order the
    handlers run: while the game screen is up and no inter-round pause
    is pending, the HUD shows the id of the current level and the
    current score.  (During the 650 ms pause after a round, and on the
    Victory screen, the HUD still shows the round just finished.) *)
Theorem hud_shows_level_and_score rnd w :
  reachable rnd w → screen (st w) = game → timeouts w = 0%nat →
  scoreEl (dom w) = Some (score (st w))
  ∧ levelEl (dom w) = id <$> LEVELS !! levelIndex (st w).
Proof.
  intros Hr. change (screen (st w) = game → timeouts w = 0%nat → hudInSync w).
  induction Hr as [|w e w' _ IH He]; [done|].
  by eapply dispatch_hud.
Qed.

Lemma hud_shows_level_and_score_witness :
  reachable (λ n, n) yourTurn
  ∧ screen (st yourTurn) = game
  ∧ timeouts yourTurn = 0%nat
  ∧ scoreEl (dom yourTurn) = Some (score (st yourTurn)).
Proof.
  assert (screen (st yourTurn) = game) as Hs by (vm_compute; reflexivity).
  assert (timeouts yourTurn = 0%nat) as Ht by (vm_compute; reflexivity).
  split; [exact yourTurn_reachable|]. split; [exact Hs|]. split; [exact Ht|].
  exact (proj1 (hud_shows_level_and_score (λ n, n) yourTurn
                  yourTurn_reachable Hs Ht)).
Defined.

(** The HUD lags behind during the pause: after the first round of a
    run from level 1 is completed, the score is 100 and the level index
    1 while the HUD still shows score 0 and level 1. *)
Example hud_lags_during_the_pause :
  let w := pressAll [red; blue; green] yourTurn in
  score (st w) = 100 ∧ levelIndex (st w) = 1%nat ∧ timeouts w = 1%nat
  ∧ scoreEl (dom w) = Some 0 ∧ levelEl (dom w) = Some 1%nat.
Proof. by vm_compute. Qed.

(** ** Pad feedback *)

(** X6.  A pad press that is evaluated always gives the feedback of the
    pressed pad first (glow, then tone), whether the signal is right or
    wrong; the wrong sound follows exactly when the signal differs from
    the expected one, and nothing else is played. *)
Theorem evaluated_press_gives_feedback color w :
  padIgnored (st w) = false →
  effects (onPadPress color w) =
  effects w ++ [GlowPad (Some color); PlayColorSound (Some color)]
    ++ (if bool_decide (currentSequence w !! inputIndex (st w) = Some color)
        then [] else [PlayWrongSound]).
Proof.
  intros Hg.
  destruct (onPadPress_cases color w)
    as [[Hig _]|[(_& Hne & ->)|[(_& Heq &_& ->)|(_& Heq &_& ->)]]].
  - congruence.
  - rewrite bool_decide_false by done. simpl. by rewrite <-!app_assoc.
  - rewrite bool_decide_true by done. simpl. by rewrite <-!app_assoc.
  - rewrite bool_decide_true by done.
    unfold advanceLevelOrWin. cbn -[LEVELS].
    destruct (levelIndex (st w) =? length LEVELS - 1)%nat; simpl;
      by rewrite <-!app_assoc.
Qed.

Lemma evaluated_press_gives_feedback_witness :
  padIgnored (st yourTurn) = false
  ∧ effects (onPadPress blue yourTurn) =
    effects yourTurn ++ [GlowPad (Some blue); PlayColorSound (Some blue)]
      ++ (if bool_decide
               (currentSequence yourTurn !! inputIndex (st yourTurn)
                = Some blue)
          then [] else [PlayWrongSound]).
Proof.
  assert (padIgnored (st yourTurn) = false) as Hg by (vm_compute; reflexivity).
  split; [exact Hg|]. exact (evaluated_press_gives_feedback blue yourTurn Hg).
Defined.

(** ** A playback inside the world *)

Lemma signalEffects_cons x xs :
  signalEffects (x :: xs) = [GlowPad x; PlayColorSound x] ++ signalEffects xs.
Proof. done. Qed.

Lemma runFrames_single_effects tss :
  ∀ w c, rafQueue w = [c] →
    effects (runFrames tss w) =
    effects w ++
    signalEffects (emissions (playFrames (deref w (c_sequence c)) c tss)).*2.
Proof.
  induction tss as [|ts tss IH]; intros w c Hq.
  { simpl. by rewrite app_nil_r. }
  cbn [runFrames foldl playFrames].
  change (foldl (λ w ts, animationFrame ts w) ?v tss) with (runFrames tss v).
  rewrite (animationFrame_single ts w c Hq). unfold runFrame.
  change (deref (setRafQueue [] w) (c_sequence c))
    with (deref w (c_sequence c)).
  destruct (frame_keeps_closure (deref w (c_sequence c)) c ts) as [Hs _].
  destruct (frame (deref w (c_sequence c)) c ts) as [c' [x| |]] eqn:Hf;
    simpl in Hs.
  - set (w1 := setRafQueue _ _).
    rewrite (IH w1 c' eq_refl).
    change (deref w1 (c_sequence c')) with (deref w (c_sequence c')).
    rewrite Hs, emissions_emit, fmap_cons, signalEffects_cons.
    unfold w1. simpl. by rewrite <-!app_assoc.
  - set (w1 := setRafQueue _ _).
    rewrite (IH w1 c' eq_refl).
    change (deref w1 (c_sequence c')) with (deref w (c_sequence c')).
    by rewrite Hs.
  - rewrite runFrames_idle by (by destruct (c_onDone c)).
    simpl. rewrite app_nil_r. by destruct (c_onDone c).
Qed.

Lemma runFrames_single_status tss :
  ∀ w c, rafQueue w = [c] → rafQueue (runFrames tss w) = [] →
         statusText (dom (runFrames tss w)) = Some "Your turn.".
Proof.
  induction tss as [|ts tss IH]; intros w c Hq Hdone.
  { simpl in Hdone. congruence. }
  cbn [runFrames foldl] in *.
  change (foldl (λ w ts, animationFrame ts w) ?v tss)
    with (runFrames tss v) in *.
  rewrite (animationFrame_single ts w c Hq) in *. unfold runFrame in *.
  destruct (frame _ c ts) as [c' [x| |]].
  - by apply (IH _ c').
  - by apply (IH _ c').
  - rewrite runFrames_idle by (by destruct (c_onDone c)).
    by destruct (c_onDone c).
Qed.

(** X7.  A round as the player sees it: a run started from a catalog
    level while nothing else is registered, then driven by frames of a
    clock with positive, increasing timestamps, makes exactly the calls
    glowPad, playColorSound for each signal of the new sequence, in
    order, and nothing else; then the queue is empty, the status reads
    "Your turn.", input is accepted and the cursor is 0. *)
Theorem round_is_shown_then_input_opens w index lvl clock :
  rafQueue w = [] → LEVELS !! index = Some lvl →
  0 < clock 0%nat → increasing clock →
  ∃ w1 n,
    startRunFromLevel index w = Some w1
    ∧ let w2 := runFrames (ticks clock n) w1 in
      effects w2 = effects w ++ signalEffects (Some <$> currentSequence w1)
      ∧ rafQueue w2 = []
      ∧ statusText (dom w2) = Some "Your turn."
      ∧ acceptingInput (st w2) = true
      ∧ isAnimatingSequence (st w2) = false
      ∧ inputIndex (st w2) = 0%nat
      ∧ currentSequence w2 = currentSequence w1.
Proof.
  intros Hq Hlvl Hpos Hinc.
  destruct (startRunFromLevel_is_Some index lvl w Hlvl) as [w1 Hw1].
  destruct (currentSequence_startRun index w w1 lvl Hlvl Hw1)
    as (Hlen & _ & Hcur).
  pose proof Hw1 as (lvl' & Hlvl' & Hb)%startRunFromLevel_inv. simplify_eq.
  pose proof Hb as (lvl' & Hlvl' & Hw1eq)%beginRound_inv.
  apply beginRound_flags in Hb
    as (_&_&_&_&_&_& Hsq &_&_& lvl'' & _ & Hq1).
  rewrite <-Hsq in Hq1.
  change (rafQueue (showScreen game ?v)) with (rafQueue v) in Hq1.
  rewrite rafQueue_pushColors in Hq1. simpl in Hq1.
  rewrite Hq in Hq1. simpl in Hq1.
  assert (effects w1 = effects w) as Heff.
  { rewrite Hw1eq. simpl.
    generalize (sequenceLength lvl).
    assert (∀ n v, effects (pushColors n v) = effects v) as Hpush.
    { induction n as [|n IHn]; intros v; [done|]. simpl. by rewrite IHn. }
    intros n. by rewrite Hpush. }
  assert (currentSequence w1 ≠ []) as Hne.
  { intros Hnil. rewrite Hnil in Hlen. apply LEVELS_entry in Hlvl. simpl in *.
    lia. }
  set (c := newClosure (sequence (st w1)) (stepMs lvl'') RoundDone) in *.
  destruct (playback_positive_clock (currentSequence w1) (stepMs lvl'')
              clock Hne Hpos Hinc)
    as (n & _ & Hsig & _ & _ & _ & (td & tl & Hdone & _) & _).
  unfold playSequenceWithRaf_log in Hsig, Hdone.
  rewrite (playFrames_same_pace _ _ _ c) in Hsig, Hdone by done.
  exists w1, n. split; [done|]. cbv zeta.
  pose proof (runFrames_single (ticks clock n) w1 c Hq1) as Hrun.
  cbv zeta in Hrun.
  change (deref w1 (c_sequence c)) with (currentSequence w1) in Hrun.
  rewrite Hdone in Hrun. destruct Hrun as [Hst Hempty].
  rewrite (runFrames_single_effects (ticks clock n) w1 c Hq1).
  change (deref w1 (c_sequence c)) with (currentSequence w1).
  rewrite Hsig, Heff, Hst.
  split; [done|]. split; [done|].
  split; [by apply (runFrames_single_status _ w1 c)|].
  split; [done|]. split; [done|]. split; [done|].
  apply currentSequence_keeps, runFrames_keeps.
Qed.

Lemma round_is_shown_then_input_opens_witness :
  rafQueue atLevelSelect = []
  ∧ LEVELS !! 0%nat = Some {| id := 1; sequenceLength := 3; stepMs := 700 |}
  ∧ 0 < 1000 + 700 * Z.of_nat 0
  ∧ increasing (λ k, 1000 + 700 * Z.of_nat k)
  ∧ ∃ w1 n,
      startRunFromLevel 0 atLevelSelect = Some w1
      ∧ acceptingInput
          (st (runFrames (ticks (λ k, 1000 + 700 * Z.of_nat k) n) w1)) = true.
Proof.
  assert (increasing (λ k, 1000 + 700 * Z.of_nat k)) as Hinc
    by (intros k; lia).
  assert (0 < 1000 + 700 * Z.of_nat 0) as Hpos by lia.
  split; [reflexivity|]. split; [reflexivity|]. split; [exact Hpos|].
  split; [exact Hinc|].
  destruct (round_is_shown_then_input_opens atLevelSelect 0 _
              (λ k, 1000 + 700 * Z.of_nat k) eq_refl eq_refl Hpos Hinc)
    as (w1 & n & Hw1 & _ & _ & _ & Hacc & _).
  exists w1, n. split; [exact Hw1|exact Hacc].
Defined.

(** ** The engine: pace and edge cases *)

(** X8.  Driven by a clock of positive, increasing timestamps, a playback
    over a non-empty array emits each signal once and in order, the
    first one on the first tick, no two on one tick, consecutive ones at
    least max(280, stepMs) apart; it calls [onDone] once, at least that
    long after the last emission, and stops. *)
Theorem playback_paces_the_signals arr step clock :
  arr ≠ [] → 0 < clock 0%nat → increasing clock →
  playbackContract arr step clock.
Proof. apply playback_positive_clock. Qed.

Lemma playback_paces_the_signals_witness :
  [red; blue; green] ≠ []
  ∧ 0 < 1000 + 16 * Z.of_nat 0
  ∧ increasing (λ k, 1000 + 16 * Z.of_nat k)
  ∧ playbackContract [red; blue; green] 400 (λ k, 1000 + 16 * Z.of_nat k).
Proof.
  assert ([red; blue; green] ≠ []) as Hne by discriminate.
  assert (0 < 1000 + 16 * Z.of_nat 0) as Hpos by lia.
  assert (increasing (λ k, 1000 + 16 * Z.of_nat k)) as Hinc
    by (intros k; lia).
  split; [exact Hne|]. split; [exact Hpos|]. split; [exact Hinc|].
  exact (playback_paces_the_signals _ 400 _ Hne Hpos Hinc).
Defined.



(** ** One playback at a time *)

(** X10.  In every state reachable through the page (each button used on
    the screen that shows it), at most one registration is pending, a
    playback or an inter-round timer and never two, so playbacks never
    overlap; and whenever input is accepted or a screen other than the
    game is up, nothing is pending at all. *)
Theorem page_never_overlaps_playbacks rnd w :
  uiReachable rnd w →
  (length (rafQueue w) + timeouts w ≤ 1)%nat
  ∧ (acceptingInput (st w) = true ∨ screen (st w) ≠ game →
     rafQueue w = [] ∧ timeouts w = 0%nat).
Proof.
  intros Hr. destruct (uiReachable_oneThingAtATime rnd w Hr) as [Hle Hpend].
  unfold pendingCount in *. split; [done|]. intros Hor.
  destruct (rafQueue w) as [|c q] eqn:Hq, (timeouts w) as [|n] eqn:Ht;
    try done; destruct Hpend as [Ha Hs]; simpl; try lia;
    destruct Hor; congruence.
Qed.

Lemma page_never_overlaps_playbacks_witness :
  uiReachable (λ n, n) atLevelSelect
  ∧ (length (rafQueue atLevelSelect) + timeouts atLevelSelect ≤ 1)%nat.
Proof.
  assert (uiReachable (λ n, n) atLevelSelect) as Hr.
  { apply (uiReachable_step _ (initialWorld (λ n, n)) ClickStart);
      [apply uiReachable_init|reflexivity|reflexivity]. }
  split; [exact Hr|].
  exact (proj1 (page_never_overlaps_playbacks (λ n, n) atLevelSelect Hr)).
Defined.

(** ** From one round to the next *)

(** X11.  After a round is completed on a level that is not the last, the
    timer that [advanceLevelOrWin] set begins the next round: the
    playback then registered plays the same array, grown by the one new
    signal, at the [stepMs] of the next level; the HUD shows the next
    level's id and the score with the 100 points added; the cursor is
    0, input is not accepted, and that timer is no longer pending. *)
Theorem next_round_begins_after_the_pause w :
  (levelIndex (st w) < length LEVELS - 1)%nat →
  ∃ lvl' w2,
    LEVELS !! S (levelIndex (st w)) = Some lvl'
    ∧ timeoutFires (advanceLevelOrWin w) = Some w2
    ∧ rafQueue w2 =
      rafQueue w ++ [newClosure (sequence (st w)) (stepMs lvl') RoundDone]
    ∧ currentSequence w2 = currentSequence w ++ [drawn w 0]
    ∧ timeouts w2 = timeouts w
    ∧ scoreEl (dom w2) = Some (score (st w) + 100)
    ∧ levelEl (dom w2) = Some (id lvl')
    ∧ statusText (dom w2) = Some "Watch the sequence..."
    ∧ isAnimatingSequence (st w2) = true
    ∧ acceptingInput (st w2) = false
    ∧ inputIndex (st w2) = 0%nat.
Proof.
  intros Hlt.
  destruct (lookup_lt_is_Some_2 LEVELS (S (levelIndex (st w))))
    as [lvl' Hlvl']; [lia|].
  rewrite advanceLevelOrWin_next by lia. cbv zeta.
  unfold timeoutFires. cbn [timeouts setTimeouts].
  erewrite beginRound_Some;
    [|cbn -[LEVELS]; rewrite Nat.add_1_r; exact Hlvl'].
  exists lvl'. eexists. split; [done|]. split; [done|].
  cbn -[LEVELS]. unfold currentSequence, deref, drawn. cbn -[LEVELS].
  rewrite fn_lookup_insert, Nat.add_0_r. done.
Qed.

Lemma next_round_begins_after_the_pause_witness :
  (levelIndex (st yourTurn) < length LEVELS - 1)%nat
  ∧ ∃ lvl' w2,
      LEVELS !! S (levelIndex (st yourTurn)) = Some lvl'
      ∧ timeoutFires (advanceLevelOrWin yourTurn) = Some w2
      ∧ rafQueue w2 =
        rafQueue yourTurn
          ++ [newClosure (sequence (st yourTurn)) (stepMs lvl') RoundDone].
Proof.
  assert (levelIndex (st yourTurn) < length LEVELS - 1)%nat as Hlt
    by (vm_compute; lia).
  split; [exact Hlt|].
  destruct (next_round_begins_after_the_pause yourTurn Hlt)
    as (lvl' & w2 & Hl & Hw2 & Hq & _).
  exists lvl', w2. split; [exact Hl|]. split; [exact Hw2|exact Hq].
Defined.

(** ** Arrays of older runs *)

Lemma arrays_pushColors n :
  ∀ w r, r ≠ sequence (st w) → arrays (pushColors n w) r = arrays w r.
Proof.
  induction n as [|n IH]; intros w r Hr; [done|].
  cbn [pushColors]. rewrite IH by done.
  unfold sequencePush. simpl. by rewrite fn_lookup_insert_ne.
Qed.

(** X12.  [startRunFromLevel] fills a new array: every array that existed
    before (any reference other than the one just handed out) has the
    contents it had, so the sequence held by a playback of an older run
    is not touched by the new run, and the state no longer refers to
    it. *)
Theorem new_run_leaves_older_arrays index w w1 r :
  startRunFromLevel index w = Some w1 → r ≠ nextRef w →
  deref w1 r = deref w r
  ∧ sequence (st w1) = nextRef w
  ∧ nextRef w1 = S (nextRef w).
Proof.
  intros (lvl & Hlvl & Hb)%startRunFromLevel_inv Hr.
  apply beginRound_inv in Hb as (lvl' & _ & ->).
  unfold deref. cbn -[LEVELS]. rewrite st_pushColors. cbn -[LEVELS].
  split; [|split; [done|]].
  - rewrite arrays_pushColors by (simpl; done).
    simpl. by rewrite fn_lookup_insert_ne.
  - generalize (sequenceLength lvl).
    assert (∀ n v, nextRef (pushColors n v) = nextRef v) as Hpush.
    { induction n as [|n IHn]; intros v; [done|]. simpl. by rewrite IHn. }
    intros n. by rewrite Hpush.
Qed.

Lemma new_run_leaves_older_arrays_witness :
  (∃ w1, startRunFromLevel 1 yourTurn = Some w1
     ∧ sequence (st yourTurn) ≠ nextRef yourTurn
     ∧ deref w1 (sequence (st yourTurn)) = [red; blue; green]).
Proof.
  destruct (startRunFromLevel 1 yourTurn) as [w1|] eqn:Hw1;
    [|vm_compute in Hw1; discriminate Hw1].
  assert (sequence (st yourTurn) ≠ nextRef yourTurn) as Hr
    by (vm_compute; lia).
  exists w1. split; [reflexivity|]. split; [exact Hr|].
  exact (proj1 (new_run_leaves_older_arrays 1 yourTurn w1 _ Hw1 Hr)).
Defined.
